(** * The theme build pipeline of [tools/build/index.ts]

    A shallow embedding of the build script: the string helpers it relies
    on ([String.prototype.replace], [path.extname]), the helper functions
    [ext] and [minsvg], the manifest fold, the template transform and the
    observable pipeline ([assets$], [stylesheets$], [javascripts$],
    [manifest$], [templates$], [build$]).

    JavaScript strings are modelled as [string]: a sequence of code units,
    restricted here to the code units 0..255. *)

From Stdlib Require Import Bool Arith Lia List Sorted Ascii String.
Import ListNotations.
Open Scope string_scope.

Set Implicit Arguments.

(* ===================================================================== *)
(** * JavaScript strings *)
(* ===================================================================== *)

Module JS.

(** [s.slice(n)] for [0 <= n]. *)
Fixpoint drop (n : nat) (s : string) : string :=
  match n, s with
  | O, _ => s
  | S _, EmptyString => EmptyString
  | S n', String _ s' => drop n' s'
  end.

(** [s.slice(0, n)] for [0 <= n]. *)
Fixpoint take (n : nat) (s : string) : string :=
  match n, s with
  | O, _ => EmptyString
  | S _, EmptyString => EmptyString
  | S n', String c s' => String c (take n' s')
  end.

(** [s.slice(a, b)] for [0 <= a], [0 <= b]. *)
Definition slice (a b : nat) (s : string) : string :=
  take (b - a) (drop a s).

(** [s.startsWith(p)]. *)
Definition startsWith (s p : string) : bool := prefix p s.

(** [s.endsWith(p)]. *)
Definition endsWith (s p : string) : bool :=
  Nat.leb (length p) (length s) && String.eqb (drop (length s - length p) s) p.

(** The first occurrence of [pat] in [s], as the text before it and the
    text after it ([s.indexOf(pat)] and the two slices around the match).
    The empty pattern occurs at position 0. *)
Fixpoint split_first (pat s : string) : option (string * string) :=
  if prefix pat s then Some (EmptyString, drop (length pat) s)
  else match s with
       | EmptyString => None
       | String c s' =>
           match split_first pat s' with
           | Some (b, a) => Some (String c b, a)
           | None => None
           end
       end.

Definition includes (s pat : string) : bool :=
  match split_first pat s with Some _ => true | None => false end.

(** Whether the code unit [c] occurs in [s]. *)
Fixpoint has_char (c : ascii) (s : string) : bool :=
  match s with
  | EmptyString => false
  | String d s' => Ascii.eqb d c || has_char c s'
  end.

Definition is_digit (c : ascii) : bool :=
  let n := nat_of_ascii c in Nat.leb 48 n && Nat.leb n 57.

Definition digit_val (c : ascii) : nat := nat_of_ascii c - 48.

(** [GetSubstitution] of ECMA-262 for a pattern without named groups:
    expands [$$], [$&], [$`], [$'] and the capture references [$n], [$nn]
    of the replacement template [tpl]; [matched] is the matched text,
    [before] and [after] are the text of the subject around the match and
    [caps] are the captures. *)
Fixpoint get_substitution (matched before after : string)
    (caps : list string) (tpl : string) : string :=
  match tpl with
  | EmptyString => EmptyString
  | String c r =>
      if Ascii.eqb c "$" then
        match r with
        | String d r1 =>
            if Ascii.eqb d "$" then
              String "$" (get_substitution matched before after caps r1)
            else if Ascii.eqb d "&" then
              matched ++ get_substitution matched before after caps r1
            else if Ascii.eqb d "`" then
              before ++ get_substitution matched before after caps r1
            else if Ascii.eqb d "'" then
              after ++ get_substitution matched before after caps r1
            else if is_digit d then
              let one :=
                (* a one-digit reference [$d], the text after it is [r1] *)
                let i := digit_val d in
                if Nat.leb 1 i && Nat.leb i (List.length caps)
                then nth (i - 1) caps EmptyString
                       ++ get_substitution matched before after caps r1
                else String c (String d
                       (get_substitution matched before after caps r1)) in
              match r1 with
              | String e r2 =>
                  if is_digit e then
                    let i := 10 * digit_val d + digit_val e in
                    if Nat.ltb (List.length caps) i then one
                    else if Nat.leb 1 i
                    then nth (i - 1) caps EmptyString
                           ++ get_substitution matched before after caps r2
                    else String c (String d (String e
                           (get_substitution matched before after caps r2)))
                  else one
              | EmptyString => one
              end
            else String c (get_substitution matched before after caps r)
        | EmptyString => String c EmptyString
        end
      else String c (get_substitution matched before after caps r)
  end.

(** [s.replace(pat, tpl)] with a string pattern: only the first occurrence
    is replaced, and the replacement is a template. *)
Definition replace (s pat tpl : string) : string :=
  match split_first pat s with
  | Some (b, a) => b ++ get_substitution pat b a [] tpl ++ a
  | None => s
  end.

(** ** Regular expressions of the build script *)

Definition LF : ascii := "010"%char.
Definition CR : ascii := "013"%char.

(** [LineTerminator] (among the code units modelled). *)
Definition is_line_terminator (c : ascii) : bool :=
  Ascii.eqb c LF || Ascii.eqb c CR.

(** The class [\s]: white space and line terminators (among the code
    units modelled: TAB, LF, VT, FF, CR, SP, NBSP). *)
Definition is_space (c : ascii) : bool :=
  let n := nat_of_ascii c in
  (Nat.leb 9 n && Nat.leb n 13) || Nat.eqb n 32 || Nat.eqb n 160.

(** [data.replace(/\r\n/gm, "\n")]. *)
Fixpoint normalize_linefeeds (s : string) : string :=
  match s with
  | EmptyString => EmptyString
  | String c s' =>
      match s' with
      | String d s'' =>
          if Ascii.eqb c CR && Ascii.eqb d LF
          then String LF (normalize_linefeeds s'')
          else String c (normalize_linefeeds s')
      | EmptyString => String c EmptyString
      end
  end.

(** The length of the match of [\s*[\r\n]] at the head of [s], if any:
    [\s*] is greedy and backtracks to the last line terminator of the
    white-space run [s] starts with. [n] counts the code units of the run
    already passed. *)
Fixpoint blank_match (n : nat) (s : string) : option nat :=
  match s with
  | EmptyString => None
  | String c s' =>
      if is_space c then
        match blank_match (S n) s' with
        | Some k => Some k
        | None => if is_line_terminator c then Some (S n) else None
        end
      else None
  end.

(** [html.replace(/^\s*[\r\n]/gm, empty)]: [bol] tells whether [^] matches
    at the head of [s] (start of input, or after a line terminator) and
    [skip] is the number of code units of the current match still to be
    dropped. *)
Fixpoint strip_blank_lines_from (bol : bool) (skip : nat) (s : string)
  : string :=
  match s with
  | EmptyString => EmptyString
  | String c s' =>
      match skip with
      | S k => strip_blank_lines_from (is_line_terminator c) k s'
      | O =>
          match (if bol then blank_match 0 s else None) with
          | Some (S k) => strip_blank_lines_from (is_line_terminator c) k s'
          | _ => String c (strip_blank_lines_from (is_line_terminator c) 0 s')
          end
      end
  end.

Definition strip_blank_lines (s : string) : string :=
  strip_blank_lines_from true 0 s.

(** The key interpolated into the pattern of the template rewrite (group 1:
    a single or a double quote; the key; a back-reference to group 1) is
    read as a regular expression. The fragment modelled: a code unit
    that is not a syntax character stands for itself, and [.] matches any
    code unit but a line terminator. *)
Inductive atom : Type :=
| Lit (c : ascii)
| AnyChar.

Definition is_syntax_char (c : ascii) : bool :=
  existsb (Ascii.eqb c)
    (list_ascii_of_string "^$\.*+?()[]{}|").

(** [None]: the key holds a syntax character other than [.], and its
    reading as a pattern is outside the fragment modelled; such a pattern
    is left to the [RegExp] of the runtime ([Build.replace_key]). *)
Fixpoint key_atoms (key : string) : option (list atom) :=
  match key with
  | EmptyString => Some []
  | String c key' =>
      match key_atoms key' with
      | None => None
      | Some p =>
          if Ascii.eqb c "." then Some (AnyChar :: p)
          else if is_syntax_char c then None
          else Some (Lit c :: p)
      end
  end.

Definition atom_matches (a : atom) (c : ascii) : bool :=
  match a with
  | Lit d => Ascii.eqb c d
  | AnyChar => negb (is_line_terminator c)
  end.

(** Matches the atoms [p] at the head of [s]: the matched text and the
    rest. *)
Fixpoint match_atoms (p : list atom) (s : string) : option (string * string) :=
  match p with
  | [] => Some (EmptyString, s)
  | a :: p' =>
      match s with
      | EmptyString => None
      | String c s' =>
          if atom_matches a c then
            match match_atoms p' s' with
            | Some (m, r) => Some (String c m, r)
            | None => None
            end
          else None
      end
  end.

Definition SQ : ascii := "039"%char.
Definition DQ : ascii := "034"%char.

Definition is_quote (c : ascii) : bool :=
  Ascii.eqb c SQ || Ascii.eqb c DQ.

(** The text [s] between two quotes [q]. *)
Definition quoted (q : ascii) (s : string) : string :=
  String q (s ++ String q EmptyString).

(** Matches a quote, the atoms [p] and the same quote again at the head of
    [s]: the quote captured by group 1, the whole matched text and the
    rest. *)
Definition match_quoted (p : list atom) (s : string)
  : option (ascii * string * string) :=
  match s with
  | EmptyString => None
  | String q s1 =>
      if is_quote q then
        match match_atoms p s1 with
        | Some (m, String q' rest) =>
            if Ascii.eqb q' q
            then Some (q, quoted q m, rest)
            else None
        | _ => None
        end
      else None
  end.

(** [s.replace(re, tpl)] for the global pattern [re] of [match_quoted]:
    every match, left to
    right and without overlap, is replaced by the expansion of [tpl].
    [before] is the text of the subject in front of [s] and [skip] the
    number of code units of the current match still to be passed. *)
Fixpoint replace_quoted_from (p : list atom) (tpl : string)
    (skip : nat) (before s : string) : string :=
  match s with
  | EmptyString => EmptyString
  | String c s' =>
      let before' := before ++ String c EmptyString in
      match skip with
      | S k => replace_quoted_from p tpl k before' s'
      | O =>
          match match_quoted p s with
          | Some (q, m, rest) =>
              get_substitution m before rest [String q EmptyString] tpl
                ++ replace_quoted_from p tpl (length m - 1) before' s'
          | None => String c (replace_quoted_from p tpl 0 before' s')
          end
      end
  end.

(** The replacement of the template rewrite: [data.replace(re, tpl)] with
    [re] the global pattern built from [key] and [tpl] the text
    [$1], [value], [$1], for a key of the fragment modelled ([None] for
    any other key). *)
Definition replace_quoted (data key value : string) : option string :=
  match key_atoms key with
  | Some p =>
      Some (replace_quoted_from p ("$1" ++ value ++ "$1") 0 EmptyString data)
  | None => None
  end.

End JS.

(* ===================================================================== *)
(** * The [path] module of Node.js *)
(* ===================================================================== *)

Module Path.

(** The two flavours of the module: [path.posix] and [path.win32]. *)
Inductive platform : Type := Posix | Win32.

Definition isPathSeparator (pf : platform) (c : ascii) : bool :=
  match pf with
  | Posix => Ascii.eqb c "/"
  | Win32 => Ascii.eqb c "/" || Ascii.eqb c "\"
  end.

Definition isWindowsDeviceRoot (c : ascii) : bool :=
  let n := nat_of_ascii c in
  (Nat.leb 65 n && Nat.leb n 90) || (Nat.leb 97 n && Nat.leb n 122).

(** The variables of the loop of [extname]; [-1] is [None]. *)
Record ext_state : Type := {
  startDot : option nat;
  startPart : nat;
  end_ : option nat;
  matchedSlash : bool;
  preDotState : option bool  (* [None]: 0, [Some true]: 1, [Some false]: -1 *)
}.

(** The loop [for (i = path.length - 1; i >= start; --i)] over the code
    units of the path paired with their index, last one first. *)
Fixpoint extname_loop (pf : platform) (cs : list (nat * ascii))
    (st : ext_state) : ext_state :=
  match cs with
  | [] => st
  | (i, code) :: cs' =>
      if isPathSeparator pf code then
        if negb (matchedSlash st) then
          (* a separator that is not trailing: break *)
          {| startDot := startDot st; startPart := i + 1; end_ := end_ st;
             matchedSlash := matchedSlash st;
             preDotState := preDotState st |}
        else extname_loop pf cs' st
      else
        let st1 :=
          match end_ st with
          | None =>
              {| startDot := startDot st; startPart := startPart st;
                 end_ := Some (i + 1); matchedSlash := false;
                 preDotState := preDotState st |}
          | Some _ => st
          end in
        let st2 :=
          if Ascii.eqb code "." then
            match startDot st1 with
            | None =>
                {| startDot := Some i; startPart := startPart st1;
                   end_ := end_ st1; matchedSlash := matchedSlash st1;
                   preDotState := preDotState st1 |}
            | Some _ =>
                {| startDot := startDot st1; startPart := startPart st1;
                   end_ := end_ st1; matchedSlash := matchedSlash st1;
                   preDotState := Some true |}
            end
          else
            match startDot st1 with
            | Some _ =>
                {| startDot := startDot st1; startPart := startPart st1;
                   end_ := end_ st1; matchedSlash := matchedSlash st1;
                   preDotState := Some false |}
            | None => st1
            end in
        extname_loop pf cs' st2
  end.

(** The code units of [s] with their index, counted from [i]. *)
Fixpoint indexed (i : nat) (s : string) : list (nat * ascii) :=
  match s with
  | EmptyString => []
  | String c s' => (i, c) :: indexed (S i) s'
  end.

(** On [win32] a drive letter and its colon are not part of the scan. *)
Definition extname_start (pf : platform) (p : string) : nat :=
  match pf, p with
  | Win32, String c0 (String c1 _) =>
      if Ascii.eqb c1 ":" && isWindowsDeviceRoot c0 then 2 else 0
  | _, _ => 0
  end.

(** [path.extname(p)]. *)
Definition extname (pf : platform) (p : string) : string :=
  let start := extname_start pf p in
  let st :=
    extname_loop pf (rev (indexed start (JS.drop start p)))
      {| startDot := None; startPart := start; end_ := None;
         matchedSlash := true; preDotState := None |} in
  match startDot st, end_ st with
  | Some sd, Some e =>
      match preDotState st with
      | None => EmptyString
      | Some true =>
          if Nat.eqb sd (e - 1) && Nat.eqb sd (startPart st + 1)
          then EmptyString
          else JS.slice sd e p
      | Some false => JS.slice sd e p
      end
  | _, _ => EmptyString
  end.

End Path.

(* ===================================================================== *)
(** * Helper functions *)
(* ===================================================================== *)

(** [ext(file, extension)]: replace file extension. *)
Definition ext (pf : Path.platform) (file extension : string) : string :=
  JS.replace file (Path.extname pf file) extension.

(** [minsvg(data)]: optimize SVG data; [optimize] is the optimizer of the
    svgo package with the plugin configuration of the script, [None] when
    it throws. *)
Definition minsvg (optimize : string -> option string) (data : string)
  : option string :=
  if negb (JS.startsWith data "<") then Some data
  else optimize data.

(* ===================================================================== *)
(** * Objects: [Map] and the store *)
(* ===================================================================== *)

(** A JavaScript [Map] from strings to strings: its entries in insertion
    order, which is the order [for ... of] visits them in. *)
Module JSMap.

Definition t : Type := list (string * string).

(** [m.set(k, v)]: an existing key keeps its place and takes the new
    value, a new key goes last. *)
Fixpoint set (k v : string) (m : t) : t :=
  match m with
  | [] => [(k, v)]
  | (k', v') :: m' =>
      if String.eqb k' k then (k', v) :: m' else (k', v') :: set k v m'
  end.

(** [m.get(k)]. *)
Fixpoint get (k : string) (m : t) : option string :=
  match m with
  | [] => None
  | (k', v') :: m' => if String.eqb k' k then Some v' else get k m'
  end.

Definition has (k : string) (m : t) : bool :=
  match get k m with Some _ => true | None => false end.

End JSMap.

(** The store: the [Map] objects allocated so far, by address. A value of
    type [Map] in the script is an address of the store, so that two uses
    of one object see each other's updates. *)
Module Store.

Definition loc : Type := nat.
Definition t : Type := list JSMap.t.

(** [new Map()]. *)
Definition alloc (h : t) : loc * t := (List.length h, (h ++ [[]])%list).

(** The entries of the object at [l]. *)
Definition read (h : t) (l : loc) : JSMap.t := nth l h [].

Fixpoint write (l : loc) (m : JSMap.t) (h : t) : t :=
  match h, l with
  | [], _ => []
  | _ :: h', O => m :: h'
  | m' :: h', S l' => m' :: write l' m h'
  end.

(** [l.set(k, v)], which updates the object in place. *)
Definition map_set (l : loc) (k v : string) (h : t) : t :=
  write l (JSMap.set k v (read h l)) h.

End Store.

(* ===================================================================== *)
(** * Observables *)
(* ===================================================================== *)

(** An observable is modelled by what a subscriber sees of it: the values
    it emits, each with the tick it is emitted at, and the tick it
    completes at, if it does. A tick is one turn of the event loop; what
    happens synchronously within a turn happens at one tick. Observables
    of the script are cold: a run is a function of the tick of the
    subscription. A run also carries the log of the instrumented calls made
    while the subscription is alive. *)
Module Rx.

Local Open Scope list_scope.
Local Open Scope nat_scope.

(** Ticks. *)
Abbreviation time := nat (only parsing).

(** What an external collaborator delivers to one subscription. *)
Record marble (A : Type) : Type := {
  m_emits : list (time * A);
  m_done : option time
}.

Definition source (A : Type) : Type := time -> marble A.

Record run (L A : Type) : Type := {
  emits : list (time * A);
  done : option time;
  log : list (time * L)
}.

Definition obs (L A : Type) : Type := time -> run L A.

Section Operators.

Context {L : Type}.

(** A collaborator that is not instrumented. *)
Definition silent {A} (src : source A) : obs L A := fun t =>
  {| emits := m_emits (src t); done := m_done (src t); log := [] |}.

(** A collaborator instrumented with [started] at the subscription and
    [finished] at the completion. *)
Definition instrumented {A} (started finished : L) (src : source A)
  : obs L A := fun t =>
  {| emits := m_emits (src t);
     done := m_done (src t);
     log := (t, started) ::
            match m_done (src t) with
            | Some d => [(d, finished)]
            | None => []
            end |}.

(** [of(v1, ..., vn)]. *)
Definition of_ {A} (vs : list A) : obs L A := fun t =>
  {| emits := map (fun v => (t, v)) vs; done := Some t; log := [] |}.

(** [EMPTY]. *)
Definition EMPTY {A} : obs L A := fun t =>
  {| emits := []; done := Some t; log := [] |}.

(** [defer(factory)]: the factory runs at the subscription. *)
Definition defer {A} (factory : unit -> obs L A) : obs L A := fun t =>
  factory tt t.

(** [concat(o1, ..., on)]: each observable is subscribed to when the one
    before it completes. *)
Fixpoint concat {A} (os : list (obs L A)) : obs L A := fun t =>
  match os with
  | [] => {| emits := []; done := Some t; log := [] |}
  | o :: os' =>
      let r := o t in
      match done r with
      | Some d =>
          let r' := concat os' d in
          {| emits := emits r ++ emits r';
             done := done r';
             log := log r ++ log r' |}
      | None => r
      end
  end.

(** [startWith(v)], which is [concat(of(v), source)]. *)
Definition startWith {A} (v : A) (o : obs L A) : obs L A :=
  concat [of_ [v]; o].

(** Inserts [x] into a list ordered by tick, in front of the entries of
    its own tick. *)
Fixpoint tinsert {A} (x : time * A) (l : list (time * A))
  : list (time * A) :=
  match l with
  | [] => [x]
  | y :: l' => if fst y <? fst x then y :: tinsert x l' else x :: l
  end.

(** Orders by tick; entries of one tick keep their order. *)
Fixpoint tsort {A} (l : list (time * A)) : list (time * A) :=
  match l with
  | [] => []
  | x :: l' => tinsert x (tsort l')
  end.

(** The tick by which all of the runs that complete have completed. *)
Definition all_done {A} (t : time) (rs : list (run L A)) : option time :=
  fold_right
    (fun r acc =>
       match done r, acc with
       | Some d, Some d' => Some (Nat.max d d')
       | _, _ => None
       end)
    (Some t) rs.

(** [merge(o1, ..., on)]: all are subscribed to at once; the values
    interleave by tick, those of one tick in the order of the sources. *)
Definition merge {A} (os : list (obs L A)) : obs L A := fun t =>
  let rs := map (fun o => o t) os in
  {| emits := tsort (List.concat (map (@emits L A) rs));
     done := all_done t rs;
     log := List.concat (map (@log L A) rs) |}.

(** [toArray()]: one array with all the values, at the completion. *)
Definition toArray {A} (o : obs L A) : obs L (list A) := fun t =>
  let r := o t in
  {| emits := match done r with
              | Some d => [(d, map snd (emits r))]
              | None => []
              end;
     done := done r;
     log := log r |}.

(** The accumulator after each value, starting from [acc]. *)
Fixpoint scan_list {S A} (f : S -> A -> S) (acc : S)
    (l : list (time * A)) : list (time * S) :=
  match l with
  | [] => []
  | (t, a) :: l' => let acc' := f acc a in (t, acc') :: scan_list f acc' l'
  end.

(** [scan(f, seed)]. *)
Definition scan {S A} (f : S -> A -> S) (seed : S) (o : obs L A)
  : obs L S := fun t =>
  let r := o t in
  {| emits := scan_list f seed (emits r); done := done r; log := log r |}.

(** What is seen of a subscription made at [t0] and dropped at [stop]:
    the entries before [stop], and those of the tick [t0] itself, which
    are delivered synchronously with the subscription. *)
Definition kept (stop : option time) (t0 : time) (t : time) : bool :=
  match stop with
  | None => true
  | Some c => (t <? c) || (t <=? t0)
  end.

Definition cut {A} (stop : option time) (t0 : time) (r : run L A)
  : run L A :=
  {| emits := filter (fun e => kept stop t0 (fst e)) (emits r);
     done := match done r with
             | Some d => if kept stop t0 d then Some d else None
             | None => None
             end;
     log := filter (fun e => kept stop t0 (fst e)) (log r) |}.

(** The tick of the next value of the outer observable, if any. *)
Definition next_time {A} (l : list (time * A)) : option time :=
  match l with
  | [] => None
  | (t, _) :: _ => Some t
  end.

(** The inner subscriptions of [switchMap]: one for each value of the
    outer observable, dropped when the next value arrives. *)
Fixpoint switch_inners {A B} (f : A -> obs L B) (outer : list (time * A))
  : list (run L B) :=
  match outer with
  | [] => []
  | (t, a) :: rest => cut (next_time rest) t (f a t) :: switch_inners f rest
  end.

(** [switchMap(f)]: completes when the outer observable and the last
    inner one have completed. *)
Definition switchMap {A B} (f : A -> obs L B) (o : obs L A) : obs L B :=
  fun t =>
  let r := o t in
  let ins := switch_inners f (emits r) in
  {| emits := List.concat (map (@emits L B) ins);
     done := match done r with
             | None => None
             | Some d =>
                 match last (map Some ins) None with
                 | None => Some d
                 | Some i =>
                     match done i with
                     | Some d' => Some (Nat.max d d')
                     | None => None
                     end
                 end
             end;
     log := log r ++ List.concat (map (@log L B) ins) |}.

(** [mergeMap(f)]: an inner subscription for each value of the outer
    observable, all kept to their end. *)
Definition mergeMap {A B} (f : A -> obs L B) (o : obs L A) : obs L B :=
  fun t =>
  let r := o t in
  let ins := map (fun e => f (snd e) (fst e)) (emits r) in
  {| emits := tsort (List.concat (map (@emits L B) ins));
     done := match done r with
             | None => None
             | Some d => all_done d ins
             end;
     log := log r ++ List.concat (map (@log L B) ins) |}.

(** The pairs of [zip]: the i-th values of both sources, at the tick the
    later of the two arrives. *)
Fixpoint zip_pairs {A B} (la : list (time * A)) (lb : list (time * B))
  : list (time * (A * B)) :=
  match la, lb with
  | (ta, a) :: la', (tb, b) :: lb' =>
      (Nat.max ta tb, (a, b)) :: zip_pairs la' lb'
  | _, _ => []
  end.

(** The tick at which a source that completes at [d] after [n] values
    ends [zip]: when it has completed and all its values are paired. *)
Definition zip_end {C} (d : option time) (n : nat)
    (pairs : list (time * C)) : option time :=
  match d with
  | None => None
  | Some d =>
      match n with
      | O => Some d
      | S n' =>
          match nth_error pairs n' with
          | Some (tp, _) => Some (Nat.max d tp)
          | None => None
          end
      end
  end.

Definition option_min (a b : option time) : option time :=
  match a, b with
  | Some x, Some y => Some (Nat.min x y)
  | Some x, None => Some x
  | None, b => b
  end.

(** [zip(a, b)]: completes, and drops both subscriptions, as soon as one
    source has completed with all its values paired. *)
Definition zip {A B} (a : obs L A) (b : obs L B) : obs L (A * B) :=
  fun t =>
  let ra := a t in
  let rb := b t in
  let pairs := zip_pairs (emits ra) (emits rb) in
  let d := option_min
             (zip_end (done ra) (List.length (emits ra)) pairs)
             (zip_end (done rb) (List.length (emits rb)) pairs) in
  {| emits := pairs;
     done := d;
     log := filter (fun e => match d with
                             | Some c => fst e <=? c
                             | None => true
                             end) (log ra ++ log rb) |}.

End Operators.

End Rx.

(* ===================================================================== *)
(** * Tasks *)
(* ===================================================================== *)

(** The observables [assets$], [stylesheets$], [javascripts$],
    [manifest$], [templates$] and [build$] of the script are named
    [assets_], [stylesheets_], ... here. *)
Module Build.

Import Rx.

Local Open Scope list_scope.
Local Open Scope string_scope.

(** The options of [copyAll] the script uses. *)
Record copy_options : Type := {
  copy_from : string;
  copy_to : string;
  copy_watch : bool;
  copy_transform : option (string -> option string)
}.

(** What the script imports and is run with: the flavour of [path], the
    arguments of the process, the constant [base] and the functions
    [resolve] and [watch] of the module [_], [copyAll] of [copy],
    [transformStyle] and [transformScript] of [transform], [glob] of
    tiny-glob (as the observable of its promise), [optimize] of svgo and
    [minify] of html-minifier-terser ([None]: the call fails).

    [regexp] is the [RegExp] of the runtime, for the patterns [JS] does not
    model: [regexp source] stands for [new RegExp(source, "g")], which is
    [None] when the constructor throws a [SyntaxError], and otherwise the
    function taking [data] and [tpl] to [data.replace(re, tpl)]. *)
Record env : Type := {
  platform : Path.platform;
  argv : list string;
  base : string;
  resolve : string -> string -> source string;
  glob : string -> string -> source (list string);
  watch : list string -> string -> source string;
  copyAll : string -> copy_options -> source string;
  transformStyle : string -> string -> source string;
  transformScript : string -> string -> source string;
  optimize : string -> option string;
  minhtml : string -> option string;
  regexp : string -> option (string -> string -> string)
}.

(** The instrumentation of the stages: the calls of the Asset Copier, of
    the Transform Stages and of the Template Rewriter, the latter with the
    entries the manifest holds when the call is made. *)
Inductive stage : Type := Style | Script.

Inductive call : Type :=
| AssetCopy (pattern from to : string)
| Transform (s : stage) (from to : string)
| Rewrite (manifest : JSMap.t).

Inductive event : Type :=
| Started (c : call)
| Finished (c : call).

Definition traced {A} (c : call) (src : source A) : obs event A :=
  instrumented (Started c) (Finished c) src.

Section Pipeline.

Variable E : env.

(** [process.argv.includes(flag)]. *)
Definition argv_includes (flag : string) : bool :=
  existsb (String.eqb flag) (argv E).

(** [transform: async data => minsvg(data)]. *)
Definition minsvg_transform : option (string -> option string) :=
  Some (minsvg (optimize E)).

(** The copy passes of [assets$], in the order of the script: pattern,
    source root, destination root and transform. *)
Definition asset_passes
  : list (string * string * string * option (string -> option string)) :=
  [ (* Copy Material Design icons *)
    ("*.svg", "node_modules/@mdi/svg/svg",
     base E ++ "/.icons/material", minsvg_transform);
    ("../LICENSE", "node_modules/@mdi/svg/svg",
     base E ++ "/.icons/material", minsvg_transform);
    (* Copy GitHub octicons *)
    ("*.svg", "node_modules/@primer/octicons/build/svg",
     base E ++ "/.icons/octicons", minsvg_transform);
    ("../../LICENSE", "node_modules/@primer/octicons/build/svg",
     base E ++ "/.icons/octicons", minsvg_transform);
    (* Copy FontAwesome icons *)
    ("**/*.svg", "node_modules/@fortawesome/fontawesome-free/svgs",
     base E ++ "/.icons/fontawesome", minsvg_transform);
    ("../LICENSE.txt", "node_modules/@fortawesome/fontawesome-free/svgs",
     base E ++ "/.icons/fontawesome", minsvg_transform);
    (* Copy Lucide icons *)
    ("**/*.svg", "node_modules/lucide-static/icons",
     base E ++ "/.icons/lucide", minsvg_transform);
    ("../LICENSE", "node_modules/lucide-static/icons",
     base E ++ "/.icons/lucide", minsvg_transform);
    (* Copy Simple icons *)
    ("**/*.svg", "node_modules/simple-icons/icons",
     base E ++ "/.icons/simple", minsvg_transform);
    ("../LICENSE.md", "node_modules/simple-icons/icons",
     base E ++ "/.icons/simple", minsvg_transform);
    (* Copy images and configurations *)
    ("**/*.{jpg,png,svg,yml}", "src", base E, None);
    (* Copy third-party license file *)
    ("LICENSE", "src/assets/javascripts", "dist/assets/javascripts",
     minsvg_transform) ].

Definition asset_call
    (p : string * string * string * option (string -> option string))
  : call :=
  let '(pattern, from, to, _) := p in AssetCopy pattern from to.

Definition asset_pass
    (p : string * string * string * option (string -> option string))
  : obs event string :=
  let '(pattern, from, to, transform) := p in
  traced (asset_call p)
    (copyAll E pattern
       {| copy_from := from; copy_to := to; copy_watch := false;
          copy_transform := transform |}).

(** Copy all assets. *)
Definition assets_ : obs event string :=
  concat (map asset_pass asset_passes).

(** Transform styles. *)
Definition stylesheets_ : obs event (string * string) :=
  mergeMap
    (fun file =>
       let from := "src/" ++ file in
       let to := ext (platform E) (base E ++ "/" ++ file) ".css" in
       zip (of_ [ext (platform E) file ".css"])
           (traced (Transform Style from to) (transformStyle E from to)))
    (silent (resolve E "**/[!_]*.scss" "src")).

(** Transform scripts. *)
Definition javascripts_ : obs event (string * string) :=
  mergeMap
    (fun file =>
       let from := "src/" ++ file in
       let to := ext (platform E) (base E ++ "/" ++ file) ".js" in
       zip (of_ [ext (platform E) file ".js"])
           (traced (Transform Script from to) (transformScript E from to)))
    (silent (resolve E "**/{bundle,search}.ts" "src")).

(** [key.replace(backslash, slash)]. *)
Definition manifest_key (key : string) : string :=
  JS.replace key "\" "/".

(** [value.replace(backslash, slash).replace(`${base}/`, empty)]. *)
Definition manifest_value (value : string) : string :=
  JS.replace (JS.replace value "\" "/") (base E ++ "/") EmptyString.

(** The callback of [reduce]: [next.set(...)] updates the map [next] in
    place and returns it. *)
Definition set_entry (acc : Store.loc * Store.t) (kv : string * string)
  : Store.loc * Store.t :=
  let '(next, h) := acc in
  let '(key, value) := kv in
  (next, Store.map_set next (manifest_key key) (manifest_value value) h).

(** The callback of [scan]: [mapping.reduce(set_entry, prev)]. The
    accumulator is paired with the store the callback leaves. *)
Definition fold_mapping (acc : Store.loc * Store.t)
    (mapping : list (string * string)) : Store.loc * Store.t :=
  fold_left set_entry mapping acc.

(** The seed of [scan]: [new Map()], evaluated once, when the pipeline is
    assembled. *)
Definition seed : Store.loc * Store.t := Store.alloc [].

(** What restarts a stage: once at the subscription, and in watch mode at
    every change of a file matching [pattern]. *)
Definition triggers (pattern : string) : obs event string :=
  startWith "*"
    (defer (fun _ =>
       if argv_includes "--watch"
       then switchMap (fun files => silent (watch E files "src"))
              (silent (glob E pattern "src"))
       else EMPTY)).

(** One entry of the object given to [merge] in [manifest$]: the whole
    batch of a stage, each time the stage is restarted. *)
Definition batches {A} (pattern : string) (observable_ : obs event A)
  : obs event (list A) :=
  switchMap (fun _ => toArray observable_) (triggers pattern).

Definition mappings : obs event (list (string * string)) :=
  merge [ batches "**/*.scss" stylesheets_;
          batches "**/*.{js,ts}*" javascripts_ ].

(** Compute manifest. A value is the map together with the store at the
    tick of the emission. The script subscribes to [manifest$] once, through
    [templates$], so that the map of the seed is empty at the
    subscription. *)
Definition manifest_ : obs event (Store.loc * Store.t) :=
  scan fold_mapping seed mappings.

Definition banner : string :=
  "{#-" ++ String JS.LF
    ("  This file was automatically generated - do not edit" ++ String JS.LF
       ("-#}" ++ String JS.LF EmptyString)).

(** The source of the pattern built for [key]: a group for a single or a
    double quote, the key as it is, and a back-reference to the group. *)
Definition key_pattern (key : string) : string :=
  "('|" ++ String JS.DQ (")" ++ key ++ "\1").

(** [data.replace(new RegExp(key_pattern key, "g"), tpl)] with [tpl] the
    text [$1], [value], [$1]. Where the key is of literal characters and
    dots the pattern is the one [JS] models; any other key is read by the
    [RegExp] of the runtime. [None]: the constructor throws. *)
Definition replace_key (data key value : string) : option string :=
  match JS.replace_quoted data key value with
  | Some data' => Some data'
  | None =>
      match regexp E (key_pattern key) with
      | Some re => Some (re data ("$1" ++ value ++ "$1"))
      | None => None
      end
  end.

(** The loop [for (const [key, value] of manifest) data = data.replace(...)],
    over the entries in the order of the map. *)
Definition apply_manifest (entries : JSMap.t) (data : string)
  : option string :=
  fold_left
    (fun acc kv =>
       match acc with
       | Some d => replace_key d (fst kv) (snd kv)
       | None => None
       end)
    entries (Some data).

(** The end of the [transform] of the template pass: normalize line
    feeds, minify, remove the blank lines and put the banner in front. *)
Definition finish_template (data : string) : option string :=
  (* Normalize line feeds and minify HTML *)
  let html := JS.normalize_linefeeds data in
  match minhtml E html with
  | Some html' => Some (banner ++ JS.strip_blank_lines html')
  | None => None
  end.

(** The [transform] of the template pass, for the map [manifest] in the
    store [h]. [None]: the transform throws, as the constructor of a
    pattern or the minifier does. *)
Definition template_transform (h : Store.t) (manifest : Store.loc)
    (data : string) : option string :=
  (* If necessary, apply manifest *)
  match (if argv_includes "--optimize"
         then apply_manifest (Store.read h manifest) data
         else Some data) with
  | None => None
  | Some data' => finish_template data'
  end.

(** The template pass started for one value of [manifest$]. The map is
    only updated by [scan], at the tick of the next value, which is when
    [switchMap] drops the pass: while the pass is alive the map holds the
    entries it held at the start. *)
Definition template_pass (m : Store.loc * Store.t) : obs event string :=
  let '(manifest, h) := m in
  traced (Rewrite (Store.read h manifest))
    (copyAll E "**/*.{html,xml}"
       {| copy_from := "src"; copy_to := base E;
          copy_watch := argv_includes "--watch";
          copy_transform := Some (template_transform h manifest) |}).

(** Transform templates. *)
Definition templates_ : obs event string :=
  switchMap template_pass manifest_.

(** Assemble pipeline. *)
Definition build_ : obs event string :=
  if argv_includes "--dirty"
  then merge [templates_]
  else concat [assets_; templates_].

End Pipeline.

Arguments argv_includes : simpl never.
Arguments asset_passes : simpl never.
Arguments asset_pass : simpl never.
Arguments assets_ : simpl never.
Arguments stylesheets_ : simpl never.
Arguments javascripts_ : simpl never.
Arguments triggers : simpl never.
Arguments batches : simpl never.
Arguments mappings : simpl never.
Arguments manifest_ : simpl never.
Arguments template_pass : simpl never.
Arguments templates_ : simpl never.
Arguments build_ : simpl never.

End Build.

(* ===================================================================== *)
(** * Concrete runs *)
(* ===================================================================== *)

(** Collaborators with fixed delays, to run the pipeline on. *)
Module Scenario.

Import Rx Build.

Local Open Scope list_scope.
Local Open Scope string_scope.

(** Delivers the values [vs] after [delay] ticks, and completes. *)
Definition after {A} (delay : nat) (vs : list A) : source A := fun t =>
  {| m_emits := map (fun v => (t + delay, v)) vs;
     m_done := Some (t + delay) |}.

(** Delivers the values [vs] after [delay] ticks, and stays open. *)
Definition after_open {A} (delay : nat) (vs : list A) : source A := fun t =>
  {| m_emits := map (fun v => (t + delay, v)) vs; m_done := None |}.

Definition is_style_pattern (pattern : string) : bool :=
  String.eqb pattern "**/[!_]*.scss" || String.eqb pattern "**/*.scss".

(** A source tree with one style sheet and one script. The style sheet is
    compiled in 2 ticks, the script in 10, a copy pass takes 3 ticks, and
    every transform reports the destination it was given. The keys of
    this tree are of literal characters and dots; for any other pattern
    [regexp] gives a [RegExp] that matches nowhere. *)
Definition oneshot (args : list string) : env := {|
  platform := Path.Posix;
  argv := args;
  base := "dist";
  resolve := fun pattern _ =>
    if is_style_pattern pattern then after 1 ["main.scss"]
    else after 1 ["bundle.ts"];
  glob := fun pattern _ =>
    if is_style_pattern pattern then after 1 [["main.scss"]]
    else after 1 [["bundle.ts"]];
  watch := fun _ _ => after_open 0 [];
  copyAll := fun pattern o =>
    if copy_watch o then after_open 3 [copy_to o ++ "/" ++ pattern]
    else after 3 [copy_to o ++ "/" ++ pattern];
  transformStyle := fun _ to => after 2 [to];
  transformScript := fun _ to => after 10 [to];
  optimize := fun data => Some data;
  minhtml := fun html => Some html;
  regexp := fun _ => Some (fun data _ => data)
|}.

(** The same tree, watched: the style sheet [main.scss] is renamed to
    [theme.scss] and the change is reported 20 ticks after the watch
    starts; the script does not change. *)
Definition watching (args : list string) : env := {|
  platform := Path.Posix;
  argv := args;
  base := "dist";
  resolve := fun pattern _ t =>
    if is_style_pattern pattern
    then (if Nat.ltb t 10 then after 1 ["main.scss"] t
          else after 1 ["theme.scss"] t)
    else after 1 ["bundle.ts"] t;
  glob := glob (oneshot args);
  watch := fun files _ =>
    if existsb (String.eqb "main.scss") files
    then after_open 20 ["main.scss"]
    else after_open 0 [];
  copyAll := copyAll (oneshot args);
  transformStyle := transformStyle (oneshot args);
  transformScript := transformScript (oneshot args);
  optimize := optimize (oneshot args);
  minhtml := minhtml (oneshot args);
  regexp := regexp (oneshot args)
|}.

(** The tree on Windows, where the resolver lists paths with
    backslashes. Its keys keep a backslash; it is run without
    [--optimize], so that no pattern is built from them. *)
Definition windows (args : list string) : env := {|
  platform := Path.Win32;
  argv := args;
  base := "dist";
  resolve := fun pattern _ =>
    if is_style_pattern pattern
    then after 1 ["assets\stylesheets\main.scss"]
    else after 1 ["assets\javascripts\bundle.ts"];
  glob := glob (oneshot args);
  watch := watch (oneshot args);
  copyAll := copyAll (oneshot args);
  transformStyle := transformStyle (oneshot args);
  transformScript := transformScript (oneshot args);
  optimize := optimize (oneshot args);
  minhtml := minhtml (oneshot args);
  regexp := regexp (oneshot args)
|}.

(** A tree with dots in the names of directories: the directories
    [x.scss] and [x.css] hold a style sheet [main.scss] each. *)
Definition dotted (args : list string) : env := {|
  platform := Path.Posix;
  argv := args;
  base := "dist";
  resolve := fun pattern _ =>
    if is_style_pattern pattern
    then after 1 ["x.scss/main.scss"; "x.css/main.scss"]
    else after 1 ["bundle.ts"];
  glob := glob (oneshot args);
  watch := watch (oneshot args);
  copyAll := copyAll (oneshot args);
  transformStyle := transformStyle (oneshot args);
  transformScript := transformScript (oneshot args);
  optimize := optimize (oneshot args);
  minhtml := minhtml (oneshot args);
  regexp := regexp (oneshot args)
|}.

(** The one template of the tree of [rewriting]. *)
Definition template : string :=
  "<link href=" ++ JS.quoted JS.DQ "main.css" ++ ">".

(** The tree of [oneshot], watched, with collaborators that show what a
    template pass writes: the style transform reports a name with a
    digest, [main.1a.css] for a run started before tick 10 and
    [main.2b.css] after it; a change of [main.scss] is reported 20 ticks
    after the watch starts; and [copyAll] takes 10 ticks to write a file,
    delivers the text written, the result of its transform on [template],
    and stays open when it is asked to watch. *)
Definition rewriting (args : list string) : env := {|
  platform := Path.Posix;
  argv := args;
  base := "dist";
  resolve := resolve (oneshot args);
  glob := glob (oneshot args);
  watch := fun files _ =>
    if existsb (String.eqb "main.scss") files
    then after_open 20 ["main.scss"]
    else after_open 0 [];
  copyAll := fun _ o =>
    let written :=
      match copy_transform o with
      | Some transform =>
          match transform template with
          | Some text => [text]
          | None => []
          end
      | None => [template]
      end in
    if copy_watch o then after_open 10 written else after 10 written;
  transformStyle := fun _ to t =>
    after 2
      [JS.replace to ".css" (if Nat.ltb t 10 then ".1a.css" else ".2b.css")]
      t;
  transformScript := transformScript (oneshot args);
  optimize := optimize (oneshot args);
  minhtml := minhtml (oneshot args);
  regexp := regexp (oneshot args)
|}.

(** The entries of the manifest at each emission of [manifest$]. *)
Definition manifests (E : env) (t : nat) : list (nat * JSMap.t) :=
  map (fun e => (fst e, Store.read (snd (snd e)) (fst (snd e))))
    (emits (manifest_ E t)).

End Scenario.

(* ===================================================================== *)
(** * Properties of the string helpers *)
(* ===================================================================== *)

Section StringFacts.

Lemma prefix_empty (s : string) : prefix EmptyString s = true.
Proof. destruct s; reflexivity. Qed.

Lemma prefix_append (p s : string) : prefix p (p ++ s) = true.
Proof.
  induction p as [|c p IH]; simpl; [apply prefix_empty|].
  destruct (ascii_dec c c); [exact IH | congruence].
Qed.

Lemma split_first_empty (s : string) :
  JS.split_first EmptyString s = Some (EmptyString, s).
Proof. destruct s; reflexivity. Qed.

Lemma append_empty_r (s : string) : s ++ EmptyString = s.
Proof. induction s as [|c s IH]; simpl; [reflexivity | now rewrite IH]. Qed.

Lemma append_assoc (a b c : string) : (a ++ b) ++ c = a ++ (b ++ c).
Proof. induction a as [|x a IH]; simpl; [reflexivity | now rewrite IH]. Qed.

(** A template without [$] expands to itself. *)
Lemma get_substitution_plain (m b a : string) (caps : list string)
    (tpl : string) :
  JS.has_char "$" tpl = false ->
  JS.get_substitution m b a caps tpl = tpl.
Proof.
  induction tpl as [|c r IH]; simpl; intros H; [reflexivity|].
  apply orb_false_iff in H as [Hc Hr].
  rewrite Hc. now rewrite IH.
Qed.

(** The loop of [extname] finds no dot where there is none. *)
Lemma extname_loop_no_dot (pf : Path.platform) (cs : list (nat * ascii))
    (st : Path.ext_state) :
  Forall (fun e => Ascii.eqb (snd e) "." = false) cs ->
  Path.startDot st = None ->
  Path.startDot (Path.extname_loop pf cs st) = None.
Proof.
  intros Hcs. revert st.
  induction Hcs as [|[i c] cs Hc _ IH]; intros st Hst; simpl; [exact Hst|].
  simpl in Hc.
  destruct (Path.isPathSeparator pf c).
  - destruct (negb (Path.matchedSlash st)); simpl; [exact Hst | now apply IH].
  - rewrite Hc. apply IH.
    destruct (Path.end_ st); simpl; rewrite Hst; simpl; auto.
Qed.

Lemma indexed_no_dot (s : string) :
  JS.has_char "." s = false ->
  forall i, Forall (fun e => Ascii.eqb (snd e) "." = false) (Path.indexed i s).
Proof.
  induction s as [|c s IH]; simpl; intros H i; [constructor|].
  apply orb_false_iff in H as [Hc Hs].
  constructor; [exact Hc | now apply IH].
Qed.

Lemma drop_no_dot (n : nat) (s : string) :
  JS.has_char "." s = false -> JS.has_char "." (JS.drop n s) = false.
Proof.
  revert s. induction n as [|n IH]; intros [|c s] H; simpl; try exact H.
  simpl in H. apply orb_false_iff in H as [_ Hs]. now apply IH.
Qed.

(** A path without a dot has no extension. *)
Lemma extname_no_dot (pf : Path.platform) (p : string) :
  JS.has_char "." p = false -> Path.extname pf p = EmptyString.
Proof.
  intros H. unfold Path.extname.
  rewrite extname_loop_no_dot; [reflexivity | | reflexivity].
  apply Forall_rev, indexed_no_dot, drop_no_dot, H.
Qed.

(** The examples of the documentation of [path.extname]. *)
Example extname_examples :
  map (Path.extname Path.Posix)
    ["index.html"; "index.coffee.md"; "index."; "index"; ".index";
     ".index.md"]
  = [".html"; ".md"; "."; EmptyString; EmptyString; ".md"].
Proof. reflexivity. Qed.

Example ext_examples :
  ext Path.Posix "assets/stylesheets/main.scss" ".css"
    = "assets/stylesheets/main.css" /\
  ext Path.Win32 "dist/assets\javascripts\bundle.ts" ".js"
    = "dist/assets\javascripts\bundle.js".
Proof. split; reflexivity. Qed.

End StringFacts.

(** C10. For a file name without a dot, [ext] puts the new extension in
    front of the name instead of behind it: the extension found is the
    empty string, which [replace] finds at position zero. The new
    extension is any text without [$], the character [replace] expands in
    a replacement. *)
Theorem ext_no_dot_prepends (pf : Path.platform) (file extension : string) :
  JS.has_char "." file = false ->
  JS.has_char "$" extension = false ->
  ext pf file extension = extension ++ file.
Proof.
  intros Hfile Hext. unfold ext, JS.replace.
  rewrite (extname_no_dot pf file Hfile), split_first_empty.
  now rewrite get_substitution_plain.
Qed.

(** [ext("LICENSE", ".css")] is [".cssLICENSE"]. *)
Lemma ext_no_dot_prepends_witness :
  JS.has_char "." "LICENSE" = false /\
  JS.has_char "$" ".css" = false /\
  ext Path.Posix "LICENSE" ".css" = ".cssLICENSE".
Proof.
  split; [reflexivity|]. split; [reflexivity|].
  apply (ext_no_dot_prepends Path.Posix "LICENSE" ".css"); reflexivity.
Defined.

(* ===================================================================== *)
(** * Properties of the observable operators *)
(* ===================================================================== *)

Module RxFacts.

Import Rx.

Local Open Scope list_scope.
Local Open Scope nat_scope.

Section Causality.

Context {L : Type}.

(** Nothing of a run happens before its subscription. *)
Definition causal {A} (t : time) (r : run L A) : Prop :=
  Forall (fun e => t <= fst e) (emits r) /\
  (forall d, done r = Some d -> t <= d) /\
  Forall (fun e => t <= fst e) (log r).

Definition Causal {A} (o : obs L A) : Prop := forall t, causal t (o t).

Definition m_causal {A} (t : time) (m : marble A) : Prop :=
  Forall (fun e => t <= fst e) (m_emits m) /\
  (forall d, m_done m = Some d -> t <= d).

Definition Causal_source {A} (s : source A) : Prop :=
  forall t, m_causal t (s t).

Lemma Forall_le_mono {X} (t t' : time) (l : list (time * X)) :
  t' <= t ->
  Forall (fun e => t <= fst e) l -> Forall (fun e => t' <= fst e) l.
Proof.
  intros Hle H. eapply Forall_impl; [|exact H]. simpl. intros e He. lia.
Qed.

Lemma causal_mono {A} (t t' : time) (r : run L A) :
  t' <= t -> causal t r -> causal t' r.
Proof.
  intros Hle (He & Hd & Hl). repeat split.
  - now apply Forall_le_mono with t.
  - intros d Hd'. specialize (Hd d Hd'). lia.
  - now apply Forall_le_mono with t.
Qed.

Lemma Forall_concat {X} (P : X -> Prop) (ls : list (list X)) :
  Forall (Forall P) ls -> Forall P (List.concat ls).
Proof.
  induction 1 as [|l ls Hl _ IH]; simpl; [constructor|].
  apply Forall_app. now split.
Qed.

Lemma In_tinsert {X} (x y : time * X) (l : list (time * X)) :
  In y (tinsert x l) <-> y = x \/ In y l.
Proof.
  induction l as [|z l IH]; simpl.
  - intuition congruence.
  - destruct (fst z <? fst x); simpl; [rewrite IH|]; intuition congruence.
Qed.

Lemma In_tsort {X} (y : time * X) (l : list (time * X)) :
  In y (tsort l) <-> In y l.
Proof.
  induction l as [|x l IH]; simpl; [tauto|].
  rewrite In_tinsert, IH. intuition congruence.
Qed.

Lemma Forall_tsort {X} (P : time * X -> Prop) (l : list (time * X)) :
  Forall P l -> Forall P (tsort l).
Proof.
  rewrite !Forall_forall. intros H y Hy. apply H. now apply In_tsort.
Qed.

(** The output of [tsort] is ordered by tick. *)
Definition ordered {X} (l : list (time * X)) : Prop :=
  StronglySorted (fun a b => fst a <= fst b) l.

Lemma ordered_tinsert {X} (x : time * X) (l : list (time * X)) :
  ordered l -> ordered (tinsert x l).
Proof.
  unfold ordered. induction 1 as [|y l Hl IH Hy]; simpl.
  - repeat constructor.
  - destruct (fst y <? fst x) eqn:Hlt.
    + constructor; [exact IH|].
      apply Forall_forall. intros z Hz. apply In_tinsert in Hz as [->|Hz].
      * apply Nat.ltb_lt in Hlt. lia.
      * rewrite Forall_forall in Hy. now apply Hy.
    + apply Nat.ltb_ge in Hlt. constructor.
      * now constructor.
      * constructor; [exact Hlt|].
        eapply Forall_impl; [|exact Hy]. simpl. intros z Hz. lia.
Qed.

Lemma ordered_tsort {X} (l : list (time * X)) : ordered (tsort l).
Proof.
  induction l as [|x l IH]; simpl; [constructor | now apply ordered_tinsert].
Qed.

Lemma ordered_times {X Y} (l : list (time * X)) (l' : list (time * Y)) :
  map fst l = map fst l' -> ordered l -> ordered l'.
Proof.
  unfold ordered. revert l'.
  induction l as [|x l IH]; intros [|y l'] Heq H; simpl in Heq;
    try discriminate; [constructor|].
  injection Heq as Hxy Heq. inversion H as [|? ? Hl Hx]; subst.
  constructor; [now apply IH|].
  apply (proj1 (Forall_map fst (fun t => fst y <= t) l')).
  rewrite <- Heq, <- Hxy.
  now apply (proj2 (Forall_map fst (fun t => fst x <= t) l)).
Qed.

Lemma ordered_nth {X} (l : list (time * X)) (i j : nat)
    (a b : time * X) :
  ordered l -> i <= j ->
  nth_error l i = Some a -> nth_error l j = Some b -> fst a <= fst b.
Proof.
  unfold ordered. intros H. revert i j.
  induction H as [|x l Hl IH Hx]; intros i j Hle Hi Hj.
  - destruct i; discriminate.
  - destruct i as [|i]; destruct j as [|j]; simpl in *; try lia.
    + injection Hi as <-. injection Hj as <-. lia.
    + injection Hi as <-. apply nth_error_In in Hj.
      rewrite Forall_forall in Hx. now apply Hx.
    + apply (IH i j); [lia | exact Hi | exact Hj].
Qed.

Lemma all_done_ge {A} (t d : time) (rs : list (run L A)) :
  all_done t rs = Some d ->
  t <= d /\ Forall (fun r => exists d', done r = Some d' /\ d' <= d) rs.
Proof.
  revert d. induction rs as [|r rs IH]; simpl; intros d H.
  - injection H as <-. split; [lia | constructor].
  - destruct (done r) as [dr|] eqn:Hr; [|discriminate].
    destruct (all_done t rs) as [d'|] eqn:Hrs; [|discriminate].
    injection H as <-. destruct (IH d' eq_refl) as [Hle Hall].
    split; [lia|]. constructor.
    + exists dr. split; [exact Hr | lia].
    + eapply Forall_impl; [|exact Hall]. simpl.
      intros r' (d'' & Hd'' & Hle''). exists d''. split; [exact Hd'' | lia].
Qed.

Lemma causal_silent {A} (s : source A) :
  Causal_source s -> Causal (silent s : obs L A).
Proof.
  intros H t. destruct (H t) as [He Hd]. repeat split; simpl; auto.
Qed.

Lemma causal_instrumented {A} (a b : L) (s : source A) :
  Causal_source s -> Causal (instrumented a b s).
Proof.
  intros H t. destruct (H t) as [He Hd]. repeat split; simpl; auto.
  constructor; [simpl; lia|].
  destruct (m_done (s t)) as [d|] eqn:Hdone; [|constructor].
  constructor; [simpl; now apply Hd | constructor].
Qed.

Lemma causal_of {A} (vs : list A) : Causal (of_ vs : obs L A).
Proof.
  intros t. repeat split; simpl.
  - apply Forall_forall. intros e He. apply in_map_iff in He as (v & <- & _).
    simpl. lia.
  - intros d [= <-]. lia.
  - constructor.
Qed.

Lemma causal_EMPTY {A} : Causal (EMPTY : obs L A).
Proof.
  intros t. repeat split; simpl; try constructor. intros d [= <-]. lia.
Qed.

Lemma causal_concat {A} (os : list (obs L A)) :
  Forall Causal os -> Causal (concat os).
Proof.
  induction 1 as [|o os Ho _ IH]; intros t; simpl.
  - repeat split; simpl; try constructor. intros d [= <-]. lia.
  - destruct (Ho t) as (He & Hd & Hl).
    destruct (done (o t)) as [d|] eqn:Hdone.
    + specialize (Hd d eq_refl).
      destruct (causal_mono Hd (IH d)) as (He' & Hd' & Hl').
      repeat split; simpl; auto; apply Forall_app; auto.
    + repeat split; auto. intros d Hd'. congruence.
Qed.

Lemma causal_startWith {A} (v : A) (o : obs L A) :
  Causal o -> Causal (startWith v o).
Proof.
  intros H. apply causal_concat.
  constructor; [apply causal_of | constructor; [exact H | constructor]].
Qed.

Lemma causal_merge {A} (os : list (obs L A)) :
  Forall Causal os -> Causal (merge os).
Proof.
  intros H t. repeat split; simpl.
  - apply Forall_tsort, Forall_concat.
    apply Forall_map, Forall_map. eapply Forall_impl; [|exact H].
    simpl. intros o Ho. apply Ho.
  - intros d Hd. now apply all_done_ge in Hd.
  - apply Forall_concat.
    apply Forall_map, Forall_map. eapply Forall_impl; [|exact H].
    simpl. intros o Ho. apply Ho.
Qed.

Lemma causal_toArray {A} (o : obs L A) : Causal o -> Causal (toArray o).
Proof.
  intros H t. destruct (H t) as (He & Hd & Hl). repeat split; simpl; auto.
  destruct (done (o t)) as [d|]; constructor; simpl; auto.
Qed.

Lemma scan_list_times {S A} (f : S -> A -> S) (acc : S)
    (l : list (time * A)) :
  map fst (scan_list f acc l) = map fst l.
Proof.
  revert acc. induction l as [|[t a] l IH]; intros acc; simpl;
    [reflexivity | now rewrite IH].
Qed.

Lemma Forall_fst {X Y} (P : time -> Prop) (l : list (time * X))
    (l' : list (time * Y)) :
  map fst l = map fst l' ->
  Forall (fun e => P (fst e)) l -> Forall (fun e => P (fst e)) l'.
Proof.
  intros Heq H.
  apply (proj1 (Forall_map fst P l')). rewrite <- Heq.
  now apply (proj2 (Forall_map fst P l)).
Qed.

Lemma causal_scan {S A} (f : S -> A -> S) (seed : S) (o : obs L A) :
  Causal o -> Causal (scan f seed o).
Proof.
  intros H t. destruct (H t) as (He & Hd & Hl). repeat split; simpl; auto.
  eapply Forall_fst with (P := fun x => t <= x); [|exact He].
  symmetry. apply scan_list_times.
Qed.

Lemma Forall_filter {X} (P : X -> Prop) (f : X -> bool) (l : list X) :
  Forall P l -> Forall P (filter f l).
Proof.
  rewrite !Forall_forall. intros H x Hx. apply filter_In in Hx. now apply H.
Qed.

Lemma causal_cut {A} (stop : option time) (t0 t : time) (r : run L A) :
  causal t r -> causal t (cut stop t0 r).
Proof.
  intros (He & Hd & Hl). repeat split; simpl.
  - now apply Forall_filter.
  - intros d. destruct (done r) as [d'|]; [|discriminate].
    destruct (kept stop t0 d'); [|discriminate]. intros [= <-]. now apply Hd.
  - now apply Forall_filter.
Qed.

Lemma causal_switch_inners {A B} (f : A -> obs L B) (t : time)
    (outer : list (time * A)) :
  (forall a, Causal (f a)) ->
  Forall (fun e => t <= fst e) outer ->
  Forall (causal t) (switch_inners f outer).
Proof.
  intros Hf. induction 1 as [|[ti a] rest Hti _ IH]; simpl; constructor.
  - apply causal_cut. simpl in Hti. exact (causal_mono Hti (Hf a ti)).
  - exact IH.
Qed.

Lemma last_map_Some_In {X} (l : list X) (x : X) :
  last (map Some l) None = Some x -> In x l.
Proof.
  induction l as [|y l IH]; simpl; [discriminate|].
  destruct l as [|z l]; simpl in *.
  - intros [= ->]. now left.
  - intros H. right. now apply IH.
Qed.

Lemma causal_switchMap {A B} (f : A -> obs L B) (o : obs L A) :
  Causal o -> (forall a, Causal (f a)) -> Causal (switchMap f o).
Proof.
  intros Ho Hf t. destruct (Ho t) as (He & Hd & Hl).
  pose proof (causal_switch_inners f Hf He) as Hins.
  repeat split; simpl.
  - apply Forall_concat, Forall_map.
    eapply Forall_impl; [|exact Hins]. simpl. intros r Hr. apply Hr.
  - intros d. destruct (done (o t)) as [d0|]; [|discriminate].
    specialize (Hd d0 eq_refl).
    destruct (last (map Some (switch_inners f (emits (o t)))) None)
      as [i|]; [|intros [= <-]; exact Hd].
    destruct (done i) as [d'|]; [|discriminate]. intros [= <-]. lia.
  - apply Forall_app. split; [exact Hl|].
    apply Forall_concat, Forall_map.
    eapply Forall_impl; [|exact Hins]. simpl. intros r Hr. apply Hr.
Qed.

Lemma causal_mergeMap {A B} (f : A -> obs L B) (o : obs L A) :
  Causal o -> (forall a, Causal (f a)) -> Causal (mergeMap f o).
Proof.
  intros Ho Hf t. destruct (Ho t) as (He & Hd & Hl).
  assert (Hins : Forall (causal t)
            (map (fun e => f (snd e) (fst e)) (emits (o t)))).
  { apply Forall_map. eapply Forall_impl; [|exact He]. simpl.
    intros e Hle. exact (causal_mono Hle (Hf (snd e) (fst e))). }
  repeat split; simpl.
  - apply Forall_tsort, Forall_concat, Forall_map.
    eapply Forall_impl; [|exact Hins]. simpl. intros r Hr. apply Hr.
  - intros d. destruct (done (o t)) as [d0|]; [|discriminate].
    specialize (Hd d0 eq_refl). intros H. apply all_done_ge in H. lia.
  - apply Forall_app. split; [exact Hl|].
    apply Forall_concat, Forall_map.
    eapply Forall_impl; [|exact Hins]. simpl. intros r Hr. apply Hr.
Qed.

Lemma zip_pairs_ge {A B} (t : time) (la : list (time * A))
    (lb : list (time * B)) :
  Forall (fun e => t <= fst e) la ->
  Forall (fun e => t <= fst e) (zip_pairs la lb).
Proof.
  intros H. revert lb. induction H as [|[ta a] la Ha _ IH]; intros lb; simpl;
    [constructor|].
  destruct lb as [|[tb b] lb]; constructor; simpl in *; [lia | apply IH].
Qed.

Lemma zip_end_ge {C} (t : time) (d : option time) (n : nat)
    (pairs : list (time * C)) (c : time) :
  (forall d', d = Some d' -> t <= d') ->
  zip_end d n pairs = Some c -> t <= c.
Proof.
  intros Hd. unfold zip_end. destruct d as [d'|]; [|discriminate].
  specialize (Hd d' eq_refl).
  destruct n as [|n]; [intros [= <-]; exact Hd|].
  destruct (nth_error pairs n) as [[tp x]|]; [|discriminate].
  intros [= <-]. lia.
Qed.

Lemma causal_zip {A B} (a : obs L A) (b : obs L B) :
  Causal a -> Causal b -> Causal (zip a b).
Proof.
  intros Ha Hb t. destruct (Ha t) as (Hea & Hda & Hla).
  destruct (Hb t) as (Heb & Hdb & Hlb). repeat split; simpl.
  - now apply zip_pairs_ge.
  - intros d Hd.
    destruct (zip_end (done (a t)) (List.length (emits (a t)))
                (zip_pairs (emits (a t)) (emits (b t)))) as [ca|] eqn:Hca;
    destruct (zip_end (done (b t)) (List.length (emits (b t)))
                (zip_pairs (emits (a t)) (emits (b t)))) as [cb|] eqn:Hcb;
      simpl in Hd; try discriminate; injection Hd as <-.
    + apply zip_end_ge with (t := t) in Hca; [|exact Hda].
      apply zip_end_ge with (t := t) in Hcb; [|exact Hdb]. lia.
    + now apply zip_end_ge with (t := t) in Hca.
    + now apply zip_end_ge with (t := t) in Hcb.
  - apply Forall_filter, Forall_app. now split.
Qed.

End Causality.

(** ** Where the values and the log of an operator come from *)

Section Provenance.

Context {L : Type}.

Lemma In_concat_map {X Y} (g : X -> list Y) (l : list X) (y : Y) :
  In y (List.concat (map g l)) <-> exists x, In x l /\ In y (g x).
Proof.
  rewrite in_concat. split.
  - intros (ys & Hys & Hy). apply in_map_iff in Hys as (x & <- & Hx). eauto.
  - intros (x & Hx & Hy). exists (g x). split; [now apply in_map | exact Hy].
Qed.

Lemma In_merge_emits {A} (os : list (obs L A)) (t : time) (x : time * A) :
  In x (emits (merge os t)) <-> exists o, In o os /\ In x (emits (o t)).
Proof.
  simpl. rewrite In_tsort, In_concat_map. split.
  - intros (r & Hr & Hx). apply in_map_iff in Hr as (o & <- & Ho). eauto.
  - intros (o & Ho & Hx). exists (o t). split; [|exact Hx].
    apply in_map_iff. eauto.
Qed.

Lemma In_mergeMap_emits {A B} (f : A -> obs L B) (o : obs L A) (t : time)
    (x : time * B) :
  In x (emits (mergeMap f o t)) <->
  exists ta a, In (ta, a) (emits (o t)) /\ In x (emits (f a ta)).
Proof.
  simpl. rewrite In_tsort, In_concat_map. split.
  - intros (r & Hr & Hx). apply in_map_iff in Hr as ([ta a] & <- & He).
    exists ta, a. auto.
  - intros (ta & a & He & Hx). exists (f a ta). split; [|exact Hx].
    apply in_map_iff. exists (ta, a). auto.
Qed.

Lemma In_mergeMap_log {A B} (f : A -> obs L B) (o : obs L A) (t : time)
    (x : time * L) :
  In x (log (mergeMap f o t)) <->
  In x (log (o t)) \/
  exists ta a, In (ta, a) (emits (o t)) /\ In x (log (f a ta)).
Proof.
  simpl. rewrite in_app_iff, In_concat_map. split.
  - intros [H|(r & Hr & Hx)]; [now left|]. right.
    apply in_map_iff in Hr as ([ta a] & <- & He). exists ta, a. auto.
  - intros [H|(ta & a & He & Hx)]; [now left|]. right.
    exists (f a ta). split; [|exact Hx].
    apply in_map_iff. exists (ta, a). auto.
Qed.

(** The inner subscription of the [i]-th value of the outer observable. *)
Lemma nth_switch_inners {A B} (f : A -> obs L B) (outer : list (time * A))
    (i : nat) (r : run L B) :
  nth_error (switch_inners f outer) i = Some r <->
  exists ta a,
    nth_error outer i = Some (ta, a) /\
    r = cut (next_time (skipn (S i) outer)) ta (f a ta).
Proof.
  revert i. induction outer as [|[t0 a0] rest IH]; intros i.
  - destruct i; simpl; split; try discriminate;
      intros (ta & a & H & _); discriminate.
  - destruct i as [|i]; simpl.
    + split.
      * intros [= <-]. exists t0, a0. auto.
      * intros (ta & a & [= <- <-] & ->). reflexivity.
    + apply IH.
Qed.

Lemma In_switch_inners {A B} (f : A -> obs L B) (outer : list (time * A))
    (r : run L B) :
  In r (switch_inners f outer) <->
  exists i ta a,
    nth_error outer i = Some (ta, a) /\
    r = cut (next_time (skipn (S i) outer)) ta (f a ta).
Proof.
  split.
  - intros H. apply In_nth_error in H as (i & Hi).
    apply nth_switch_inners in Hi as (ta & a & H1 & H2). eauto.
  - intros (i & ta & a & H1 & H2). apply nth_error_In with i.
    apply nth_switch_inners. eauto.
Qed.

Lemma In_switchMap_emits {A B} (f : A -> obs L B) (o : obs L A) (t : time)
    (x : time * B) :
  In x (emits (switchMap f o t)) <->
  exists i ta a,
    nth_error (emits (o t)) i = Some (ta, a) /\
    In x (emits (f a ta)) /\
    kept (next_time (skipn (S i) (emits (o t)))) ta (fst x) = true.
Proof.
  simpl. rewrite In_concat_map. split.
  - intros (r & Hr & Hx).
    apply In_switch_inners in Hr as (i & ta & a & Hi & ->).
    simpl in Hx. apply filter_In in Hx as [Hx Hk]. exists i, ta, a. auto.
  - intros (i & ta & a & Hi & Hx & Hk).
    exists (cut (next_time (skipn (S i) (emits (o t)))) ta (f a ta)). split.
    + apply In_switch_inners. eauto.
    + simpl. apply filter_In. auto.
Qed.

Lemma In_switchMap_log {A B} (f : A -> obs L B) (o : obs L A) (t : time)
    (x : time * L) :
  In x (log (switchMap f o t)) <->
  In x (log (o t)) \/
  exists i ta a,
    nth_error (emits (o t)) i = Some (ta, a) /\
    In x (log (f a ta)) /\
    kept (next_time (skipn (S i) (emits (o t)))) ta (fst x) = true.
Proof.
  simpl. rewrite in_app_iff, In_concat_map. split.
  - intros [H|(r & Hr & Hx)]; [now left|]. right.
    apply In_switch_inners in Hr as (i & ta & a & Hi & ->).
    simpl in Hx. apply filter_In in Hx as [Hx Hk]. exists i, ta, a. auto.
  - intros [H|(i & ta & a & Hi & Hx & Hk)]; [now left|]. right.
    exists (cut (next_time (skipn (S i) (emits (o t)))) ta (f a ta)). split.
    + apply In_switch_inners. eauto.
    + simpl. apply filter_In. auto.
Qed.

(** What happens at the tick of a subscription is always kept. *)
Lemma kept_at_start (stop : option time) (t0 : time) :
  kept stop t0 t0 = true.
Proof.
  destruct stop as [c|]; simpl; [|reflexivity].
  rewrite (proj2 (Nat.leb_le t0 t0) (Nat.le_refl t0)). apply orb_true_r.
Qed.

Lemma nth_scan_list {St A} (f : St -> A -> St) (acc : St)
    (l : list (time * A)) (i : nat) (t : time) (s : St) :
  nth_error (scan_list f acc l) i = Some (t, s) <->
  exists a,
    nth_error l i = Some (t, a) /\
    s = fold_left f (map snd (firstn (S i) l)) acc.
Proof.
  revert acc i. induction l as [|[t0 a0] l IH]; intros acc i.
  - destruct i; simpl; split; try discriminate; intros (a & H & _);
      discriminate.
  - destruct i as [|i].
    + simpl. split.
      * intros [= <- <-]. exists a0. auto.
      * intros (a & [= <- <-] & ->). reflexivity.
    + simpl. rewrite IH. simpl. reflexivity.
Qed.

Lemma In_zip_pairs {A B} (la : list (time * A)) (lb : list (time * B))
    (t : time) (a : A) (b : B) :
  In (t, (a, b)) (zip_pairs la lb) ->
  (exists ta, In (ta, a) la) /\ (exists tb, In (tb, b) lb).
Proof.
  revert lb. induction la as [|[ta0 a0] la IH]; intros lb; simpl; [tauto|].
  destruct lb as [|[tb0 b0] lb]; simpl; [tauto|].
  intros [[= _ <- <-]|H].
  - split; eauto.
  - destruct (IH lb H) as [[ta Ha] [tb Hb]]. split; eauto.
Qed.

Lemma In_concat_log {A} (o : obs L A) (os : list (obs L A)) (t : time)
    (x : time * L) :
  In x (log (concat (o :: os) t)) <->
  In x (log (o t)) \/
  exists d, done (o t) = Some d /\ In x (log (concat os d)).
Proof.
  simpl. destruct (done (o t)) as [d|]; simpl.
  - rewrite in_app_iff. split.
    + intros [H|H]; [now left | right; eauto].
    + intros [H|(d' & [= <-] & H)]; auto.
  - split; [now left|]. intros [H|(d & Hd & _)]; [exact H | discriminate].
Qed.

(** When [concat] completes, each of its observables has been subscribed
    to and has completed by then. *)
Lemma concat_all_done {A} (os : list (obs L A)) (t d : time) :
  Forall Causal os ->
  done (concat os t) = Some d ->
  forall o, In o os ->
  exists ts d',
    done (o ts) = Some d' /\ d' <= d /\
    forall x, In x (log (o ts)) -> In x (log (concat os t)).
Proof.
  intros Hos. revert t.
  induction Hos as [|o0 os Ho0 Hos IH]; intros t Hd o Ho; [destruct Ho|].
  pose proof (causal_concat Hos) as Hrest.
  simpl in Hd. destruct (done (o0 t)) as [d0|] eqn:Hd0.
  - simpl in Hd. destruct Ho as [<-|Ho].
    + exists t, d0. split; [exact Hd0|]. split.
      * destruct (Hrest d0) as (_ & Hge & _). now apply Hge.
      * intros x Hx. apply In_concat_log. now left.
    + destruct (IH d0 Hd o Ho) as (ts & d' & H1 & H2 & H3).
      exists ts, d'. split; [exact H1|]. split; [exact H2|].
      intros x Hx. apply In_concat_log. right. eauto.
  - rewrite Hd0 in Hd. discriminate.
Qed.

End Provenance.

(** ** The labels of the log of an operator *)

Section Labels.

Context {L : Type}.

Variable P : L -> Prop.

Definition labelled {A} (o : obs L A) : Prop :=
  forall t, Forall (fun e => P (snd e)) (log (o t)).

Lemma labelled_silent {A} (s : source A) : labelled (silent s : obs L A).
Proof. intros t. constructor. Qed.

Lemma labelled_instrumented {A} (a b : L) (s : source A) :
  P a -> P b -> labelled (instrumented a b s).
Proof.
  intros Ha Hb t. simpl. constructor; [exact Ha|].
  destruct (m_done (s t)); repeat constructor. exact Hb.
Qed.

Lemma labelled_of {A} (vs : list A) : labelled (of_ vs : obs L A).
Proof. intros t. constructor. Qed.

Lemma labelled_EMPTY {A} : labelled (EMPTY : obs L A).
Proof. intros t. constructor. Qed.

Lemma labelled_concat {A} (os : list (obs L A)) :
  Forall labelled os -> labelled (concat os).
Proof.
  induction 1 as [|o os Ho _ IH]; intros t; simpl; [constructor|].
  destruct (done (o t)) as [d|]; simpl; [|apply Ho].
  apply Forall_app. split; [apply Ho | apply IH].
Qed.

Lemma labelled_merge {A} (os : list (obs L A)) :
  Forall labelled os -> labelled (merge os).
Proof.
  intros H t. simpl. apply Forall_concat, Forall_map, Forall_map.
  eapply Forall_impl; [|exact H]. simpl. intros o Ho. apply Ho.
Qed.

Lemma labelled_toArray {A} (o : obs L A) : labelled o -> labelled (toArray o).
Proof. intros H t. apply H. Qed.

Lemma labelled_scan {S A} (f : S -> A -> S) (seed : S) (o : obs L A) :
  labelled o -> labelled (scan f seed o).
Proof. intros H t. apply H. Qed.

Lemma labelled_switchMap {A B} (f : A -> obs L B) (o : obs L A) :
  labelled o -> (forall a, labelled (f a)) -> labelled (switchMap f o).
Proof.
  intros Ho Hf t. apply Forall_forall. intros x Hx.
  apply In_switchMap_log in Hx as [Hx|(i & ta & a & _ & Hx & _)].
  - specialize (Ho t). rewrite Forall_forall in Ho. now apply Ho.
  - specialize (Hf a ta). rewrite Forall_forall in Hf. now apply Hf.
Qed.

Lemma labelled_mergeMap {A B} (f : A -> obs L B) (o : obs L A) :
  labelled o -> (forall a, labelled (f a)) -> labelled (mergeMap f o).
Proof.
  intros Ho Hf t. apply Forall_forall. intros x Hx.
  apply In_mergeMap_log in Hx as [Hx|(ta & a & _ & Hx)].
  - specialize (Ho t). rewrite Forall_forall in Ho. now apply Ho.
  - specialize (Hf a ta). rewrite Forall_forall in Hf. now apply Hf.
Qed.

Lemma labelled_zip {A B} (a : obs L A) (b : obs L B) :
  labelled a -> labelled b -> labelled (zip a b).
Proof.
  intros Ha Hb t. simpl. apply Forall_filter, Forall_app.
  split; [apply Ha | apply Hb].
Qed.

End Labels.

End RxFacts.

(* ===================================================================== *)
(** * The helper [minsvg] and the template transform *)
(* ===================================================================== *)

Module TransformFacts.

Import Rx Build.

Local Open Scope list_scope.
Local Open Scope string_scope.

(** Every copy pass of [assets$] that has a transform has [minsvg]. *)
Lemma asset_transform_is_minsvg (E : env)
    (pattern from to : string) (transform : string -> option string) :
  In (pattern, from, to, Some transform) (asset_passes E) ->
  transform = minsvg (optimize E).
Proof.
  unfold asset_passes, minsvg_transform. simpl.
  intros H.
  repeat (destruct H as [H|H]; [now inversion H|]).
  destruct H.
Qed.

(** C7. Data that does not start with the opening character of markup
    goes through [minsvg] unchanged, and so through every copy pass of the
    pipeline that has a transform, the passes of the license files among
    them. *)
Theorem minsvg_passes_text_through (E : env) (data : string) :
  JS.startsWith data "<" = false ->
  minsvg (optimize E) data = Some data /\
  forall pattern from to transform,
    In (pattern, from, to, Some transform) (asset_passes E) ->
    transform data = Some data.
Proof.
  intros H.
  assert (Hmin : minsvg (optimize E) data = Some data)
    by (unfold minsvg; now rewrite H).
  split; [exact Hmin|].
  intros pattern from to transform Hin.
  now rewrite (asset_transform_is_minsvg Hin).
Qed.

(** A license text, with an optimizer that would reject it. *)
Lemma minsvg_passes_text_through_witness :
  let E := {| platform := Path.Posix; argv := []; base := "dist";
              resolve := resolve (Scenario.oneshot []);
              glob := glob (Scenario.oneshot []);
              watch := watch (Scenario.oneshot []);
              copyAll := copyAll (Scenario.oneshot []);
              transformStyle := transformStyle (Scenario.oneshot []);
              transformScript := transformScript (Scenario.oneshot []);
              optimize := fun _ => None;
              minhtml := minhtml (Scenario.oneshot []);
              regexp := regexp (Scenario.oneshot []) |} in
  JS.startsWith "MIT License" "<" = false /\
  minsvg (optimize E) "MIT License" = Some "MIT License".
Proof.
  intros E. split; [reflexivity|].
  apply (minsvg_passes_text_through E "MIT License"). reflexivity.
Defined.

(** Markup does reach the optimizer. *)
Lemma minsvg_optimizes_markup (optimize : string -> option string)
    (data : string) :
  JS.startsWith data "<" = true -> minsvg optimize data = optimize data.
Proof. intros H. unfold minsvg. now rewrite H. Qed.

(** ** The replacement loop *)

(** A replacement fails only where the constructor of the pattern
    throws, which does not depend on the text. *)
Lemma replace_key_none (E : env) (data key value : string) :
  replace_key E data key value = None <->
  JS.key_atoms key = None /\ regexp E (key_pattern key) = None.
Proof.
  unfold replace_key, JS.replace_quoted.
  destruct (JS.key_atoms key) as [p|].
  - split; [discriminate | intros [H _]; discriminate].
  - destruct (regexp E (key_pattern key)) as [re|].
    + split; [discriminate | intros [_ H]; discriminate].
    + split; auto.
Qed.

Lemma apply_manifest_failed (E : env) (entries : JSMap.t) :
  fold_left
    (fun acc kv =>
       match acc with
       | Some d => replace_key E d (fst kv) (snd kv)
       | None => None
       end)
    entries None = None.
Proof. induction entries as [|kv entries IH]; [reflexivity | exact IH]. Qed.

Lemma apply_manifest_cons (E : env) (key value : string)
    (entries : JSMap.t) (data : string) :
  apply_manifest E ((key, value) :: entries) data
  = match replace_key E data key value with
    | Some d => apply_manifest E entries d
    | None => None
    end.
Proof.
  unfold apply_manifest. cbn [fold_left fst snd].
  destruct (replace_key E data key value); [reflexivity|].
  apply apply_manifest_failed.
Qed.

(** The loop fails only where the constructor throws for one of the
    keys. *)
Lemma apply_manifest_none (E : env) (entries : JSMap.t) (data : string) :
  apply_manifest E entries data = None <->
  exists key value,
    In (key, value) entries /\
    JS.key_atoms key = None /\ regexp E (key_pattern key) = None.
Proof.
  revert data. induction entries as [|[k v] entries IH]; intros data.
  - split; [discriminate | intros (key & value & [] & _)].
  - rewrite apply_manifest_cons.
    destruct (replace_key E data k v) as [d|] eqn:Hr.
    + rewrite IH. split.
      * intros (key & value & Hin & H). exists key, value. split; [|exact H].
        now right.
      * intros (key & value & Hin & Hkey). destruct Hin as [Heq|Hin].
        -- injection Heq as <- <-.
           apply (replace_key_none E data k v) in Hkey. congruence.
        -- exists key, value. auto.
    + apply replace_key_none in Hr. split; [|reflexivity].
      intros _. exists k, v. split; [now left | exact Hr].
Qed.

(** C8. What the template transform returns for a template is the text
    of the banner, three lines spelled out below, followed by the minified
    text with its blank lines removed: the banner is put in front after
    the minifier and the removal of blank lines have run, and neither sees
    it. This holds of every template and every manifest, and a text is
    returned unless the constructor of the pattern of a key throws (with
    [--optimize]) or the minifier fails. *)
Theorem template_begins_with_banner (E : env) (h : Store.t)
    (manifest : Store.loc) (data : string) :
  let nl := String "010"%char EmptyString in
  let text :=
    "{#-" ++ nl ++
    "  This file was automatically generated - do not edit" ++ nl ++
    "-#}" ++ nl in
  let rewritten :=
    if argv_includes E "--optimize"
    then apply_manifest E (Store.read h manifest) data
    else Some data in
  (forall out,
     template_transform E h manifest data = Some out ->
     JS.startsWith out text = true /\
     exists data' html',
       rewritten = Some data' /\
       minhtml E (JS.normalize_linefeeds data') = Some html' /\
       out = text ++ JS.strip_blank_lines html') /\
  (template_transform E h manifest data = None <->
   (argv_includes E "--optimize" = true /\
    exists key value,
      In (key, value) (Store.read h manifest) /\
      JS.key_atoms key = None /\ regexp E (key_pattern key) = None) \/
   (exists data',
      rewritten = Some data' /\
      minhtml E (JS.normalize_linefeeds data') = None)).
Proof.
  intros nl text rewritten.
  assert (Hb : banner = text) by reflexivity.
  assert (Ht : template_transform E h manifest data
               = match rewritten with
                 | Some data' => finish_template E data'
                 | None => None
                 end) by reflexivity.
  rewrite Ht. unfold finish_template. rewrite Hb. split.
  - intros out H.
    destruct rewritten as [data'|]; [|discriminate].
    destruct (minhtml E (JS.normalize_linefeeds data')) as [html'|] eqn:Hm;
      [|discriminate].
    injection H as <-.
    split; [exact (prefix_append text (JS.strip_blank_lines html'))|].
    exists data', html'. auto.
  - split.
    + intros H. destruct rewritten as [data'|] eqn:Hr.
      * right. exists data'. split; [reflexivity|].
        destruct (minhtml E (JS.normalize_linefeeds data')); congruence.
      * left. subst rewritten.
        destruct (argv_includes E "--optimize"); [|discriminate].
        split; [reflexivity|]. now apply apply_manifest_none in Hr.
    + intros [[Ho H]|(data' & Hr & Hm)].
      * subst rewritten. rewrite Ho.
        apply (apply_manifest_none E (Store.read h manifest) data) in H.
        now rewrite H.
      * rewrite Hr, Hm. reflexivity.
Qed.

(** A template of the one-shot run with [--optimize], where the minifier
    returns its input, and a manifest with a key that is more than
    literal characters and dots. *)
Lemma template_begins_with_banner_witness :
  let E := Scenario.oneshot ["--optimize"] in
  let nl := String "010"%char EmptyString in
  let text :=
    "{#-" ++ nl ++
    "  This file was automatically generated - do not edit" ++ nl ++
    "-#}" ++ nl in
  template_transform E [[("a+b.css", "x.css")]] 0 "<p>x</p>"
  = Some (text ++ "<p>x</p>") /\
  JS.startsWith (text ++ "<p>x</p>") text = true.
Proof.
  intros E nl text.
  assert (H : template_transform E [[("a+b.css", "x.css")]] 0 "<p>x</p>"
              = Some (text ++ "<p>x</p>")) by reflexivity.
  split; [exact H|].
  exact (proj1 (proj1 (template_begins_with_banner E
                         [[("a+b.css", "x.css")]] 0 "<p>x</p>") _ H)).
Defined.

(** Without [--optimize] the manifest is not applied. *)
Lemma template_untouched_without_optimize (E : env) (h : Store.t)
    (manifest : Store.loc) (data : string) :
  argv_includes E "--optimize" = false ->
  template_transform E h manifest data =
  match minhtml E (JS.normalize_linefeeds data) with
  | Some html' => Some (banner ++ JS.strip_blank_lines html')
  | None => None
  end.
Proof.
  intros H. unfold template_transform, finish_template. now rewrite H.
Qed.

(** With [--optimize], a quoted key becomes the quoted value, in either
    quote style. *)
Lemma apply_manifest_quoted_key (E : env) :
  apply_manifest E [("main.css", "main.1a.css")]
    ("<link href=" ++ JS.quoted JS.DQ "main.css" ++ "> "
       ++ JS.quoted JS.SQ "main.css" ++ " main.css")
  = Some ("<link href=" ++ JS.quoted JS.DQ "main.1a.css" ++ "> "
            ++ JS.quoted JS.SQ "main.1a.css" ++ " main.css").
Proof. reflexivity. Qed.

(** C4. The key is put into the pattern as it is, so that its dot stands
    for any character. The one-shot build with [--optimize] computes the
    entry of [main.css] for the style sheet [main.scss]; the template
    pass started for it rewrites the quoted text [mainXcss], in which the
    key does not occur, to the value of the entry. *)
Theorem rewrite_reads_key_as_pattern :
  let E := Scenario.oneshot ["--dirty"; "--optimize"] in
  let h := [[("main.css", "main.css")]] in
  let data := "<p class=" ++ JS.quoted JS.DQ "mainXcss" ++ ">" in
  nth_error (emits (manifest_ E 0)) 0 = Some (3, (0, h)) /\
  In (3, Started (Rewrite (Store.read h 0))) (log (build_ E 0)) /\
  JS.includes data "main.css" = false /\
  template_transform E h 0 data
  = Some (banner ++ "<p class=" ++ JS.quoted JS.DQ "main.css" ++ ">").
Proof.
  intros E h data. split; [reflexivity|]. split; [|split; reflexivity].
  vm_compute. do 4 right. left. reflexivity.
Qed.

(** ** The normalization of the entries *)

Lemma drop_append (p r : string) : JS.drop (length p) (p ++ r) = r.
Proof. induction p as [|c p IH]; simpl; [now destruct r | exact IH]. Qed.

Lemma split_first_unfold (pat s : string) :
  JS.split_first pat s
  = if prefix pat s then Some (EmptyString, JS.drop (length pat) s)
    else match s with
         | EmptyString => None
         | String c s' =>
             match JS.split_first pat s' with
             | Some (b, a) => Some (String c b, a)
             | None => None
             end
         end.
Proof. destruct s; reflexivity. Qed.

Lemma split_first_prefix (p r : string) :
  JS.split_first p (p ++ r) = Some (EmptyString, r).
Proof.
  now rewrite split_first_unfold, prefix_append, drop_append.
Qed.

Lemma prefix_char_false (c d : ascii) (s : string) :
  Ascii.eqb d c = false -> prefix (String c EmptyString) (String d s) = false.
Proof.
  intros H. simpl. destruct (ascii_dec c d) as [->|]; [|reflexivity].
  rewrite Ascii.eqb_refl in H. discriminate.
Qed.

Lemma split_first_char_absent (c : ascii) (s : string) :
  JS.has_char c s = false ->
  JS.split_first (String c EmptyString) s = None.
Proof.
  induction s as [|d s IH]; simpl; intros H; [reflexivity|].
  apply orb_false_iff in H as [Hd Hs].
  destruct (ascii_dec c d) as [->|Hne].
  - rewrite Ascii.eqb_refl in Hd. discriminate.
  - now rewrite IH.
Qed.

Lemma split_first_char (c : ascii) (a b : string) :
  JS.has_char c a = false ->
  JS.split_first (String c EmptyString) (a ++ String c b) = Some (a, b).
Proof.
  induction a as [|d a IH]; simpl; intros H.
  - destruct (ascii_dec c c); [|congruence]. now rewrite prefix_empty.
  - apply orb_false_iff in H as [Hd Ha].
    destruct (ascii_dec c d) as [->|Hne].
    + rewrite Ascii.eqb_refl in Hd. discriminate.
    + now rewrite IH.
Qed.

(** A path without a backslash is left as it is. *)
Lemma manifest_key_posix (key : string) :
  JS.has_char "\" key = false -> manifest_key key = key.
Proof.
  intros H. unfold manifest_key, JS.replace.
  now rewrite split_first_char_absent.
Qed.

(** Of the backslashes of a path the first becomes a slash, and only the
    first. *)
Lemma manifest_key_first_backslash (a b : string) :
  JS.has_char "\" a = false ->
  manifest_key (a ++ String "\" b) = a ++ String "/" b.
Proof.
  intros H. unfold manifest_key, JS.replace.
  rewrite split_first_char by exact H. reflexivity.
Qed.

(** The output root in front of a path without a backslash is removed. *)
Lemma manifest_value_strips_root (E : env) (rest : string) :
  JS.has_char "\" (base E ++ "/" ++ rest) = false ->
  manifest_value E (base E ++ "/" ++ rest) = rest.
Proof.
  intros H. unfold manifest_value.
  fold (manifest_key (base E ++ "/" ++ rest)).
  rewrite manifest_key_posix by exact H.
  unfold JS.replace. rewrite <- append_assoc, split_first_prefix.
  reflexivity.
Qed.

(** C5. Only the first backslash of a key and of a value is replaced: of
    a path with two separators the second stays. *)
Theorem manifest_keeps_second_backslash :
  let E := Scenario.windows [] in
  let m := fold_mapping E seed
             [("assets\stylesheets\main.css",
               "dist/assets\stylesheets\main.css")] in
  Store.read (snd m) (fst m)
  = [("assets/stylesheets\main.css", "assets/stylesheets\main.css")].
Proof. reflexivity. Qed.

(** The same in the pipeline, from the listing of the resolver on. *)
Lemma manifest_keeps_second_backslash_run :
  Scenario.manifests (Scenario.windows []) 0
  = [(3, [("assets/stylesheets\main.css", "assets/stylesheets\main.css")]);
     (11, [("assets/stylesheets\main.css", "assets/stylesheets\main.css");
           ("assets/javascripts\bundle.js",
            "assets/javascripts\bundle.js")])].
Proof. reflexivity. Qed.

(** With forward slashes the entry is relative to the output root. *)
Lemma manifest_entry_posix :
  let E := Scenario.oneshot [] in
  let m := fold_mapping E seed
             [("assets/stylesheets/main.css",
               "dist/assets/stylesheets/main.css")] in
  Store.read (snd m) (fst m)
  = [("assets/stylesheets/main.css", "assets/stylesheets/main.css")].
Proof. reflexivity. Qed.

End TransformFacts.

(* ===================================================================== *)
(** * The manifest *)
(* ===================================================================== *)

Module ManifestFacts.

Import Rx Build RxFacts.

Local Open Scope list_scope.
Local Open Scope nat_scope.

Lemma read_write (l : Store.loc) (m : JSMap.t) (h : Store.t) :
  l < List.length h -> Store.read (Store.write l m h) l = m.
Proof.
  revert l. induction h as [|m0 h IH]; intros l Hl; simpl in Hl; [lia|].
  destruct l as [|l]; [reflexivity|]. simpl. apply IH. lia.
Qed.

Lemma write_write (l : Store.loc) (m m' : JSMap.t) (h : Store.t) :
  Store.write l m' (Store.write l m h) = Store.write l m' h.
Proof.
  revert l. induction h as [|m0 h IH]; intros l; [now destruct l|].
  destruct l as [|l]; simpl; [reflexivity | now rewrite IH].
Qed.

Lemma write_read (l : Store.loc) (h : Store.t) :
  l < List.length h -> Store.write l (Store.read h l) h = h.
Proof.
  revert l. induction h as [|m0 h IH]; intros l Hl; simpl in Hl; [lia|].
  destruct l as [|l]; [reflexivity|]. simpl. unfold Store.read in IH.
  rewrite IH; [reflexivity | lia].
Qed.

Lemma length_write (l : Store.loc) (m : JSMap.t) (h : Store.t) :
  List.length (Store.write l m h) = List.length h.
Proof.
  revert l. induction h as [|m0 h IH]; intros l; [now destruct l|].
  destruct l as [|l]; simpl; [reflexivity | now rewrite IH].
Qed.

Section Fold.

Variable E : env.

(** The entries of a map after the pairs of [mapping] are set in it. *)
Definition set_all (m : JSMap.t) (mapping : list (string * string))
  : JSMap.t :=
  fold_left
    (fun m kv =>
       JSMap.set (manifest_key (fst kv)) (manifest_value E (snd kv)) m)
    mapping m.

(** The entries of the manifest once the batches [bs] are folded into the
    map the seed creates. *)
Definition entries_after (bs : list (list (string * string))) : JSMap.t :=
  set_all [] (List.concat bs).

(** The callback of [scan] returns the map it is given, updated. *)
Lemma fold_mapping_spec (l : Store.loc) (h : Store.t)
    (mapping : list (string * string)) :
  l < List.length h ->
  fold_mapping E (l, h) mapping
  = (l, Store.write l (set_all (Store.read h l) mapping) h).
Proof.
  unfold fold_mapping, set_all. revert h.
  induction mapping as [|[k v] mapping IH]; intros h Hl; simpl.
  - now rewrite write_read.
  - unfold Store.map_set at 1. rewrite IH by (rewrite length_write; exact Hl).
    now rewrite read_write, write_write.
Qed.

Lemma fold_batches_spec (l : Store.loc) (h : Store.t)
    (bs : list (list (string * string))) :
  l < List.length h ->
  fold_left (fold_mapping E) bs (l, h)
  = (l, Store.write l (set_all (Store.read h l) (List.concat bs)) h).
Proof.
  revert h. induction bs as [|b bs IH]; intros h Hl; simpl.
  - unfold set_all. simpl. now rewrite write_read.
  - rewrite fold_mapping_spec by exact Hl.
    rewrite IH by (rewrite length_write; exact Hl).
    rewrite read_write, write_write by exact Hl.
    unfold set_all. now rewrite fold_left_app.
Qed.

(** Every value of [manifest$] is the one map of the seed, holding what
    all the batches delivered so far have set. *)
Lemma manifest_emission (t0 : time) (i : nat) (t : time)
    (l : Store.loc) (h : Store.t) :
  nth_error (emits (manifest_ E t0)) i = Some (t, (l, h)) ->
  l = fst seed /\
  Store.read h l
  = entries_after (map snd (firstn (S i) (emits (mappings E t0)))) /\
  exists b, nth_error (emits (mappings E t0)) i = Some (t, b).
Proof.
  unfold manifest_, scan. cbn [emits]. intros H.
  apply nth_scan_list in H as (b & Hb & Hs).
  remember (map snd (firstn (S i) (emits (mappings E t0)))) as bs eqn:Hbs.
  unfold seed, Store.alloc in Hs. cbn [List.length app] in Hs.
  rewrite fold_batches_spec in Hs by (simpl; lia).
  injection Hs as -> ->. split; [reflexivity|]. split; [reflexivity|eauto].
Qed.

Lemma has_set (k k' v' : string) (m : JSMap.t) :
  JSMap.has k m = true -> JSMap.has k (JSMap.set k' v' m) = true.
Proof.
  unfold JSMap.has. induction m as [|[k0 v0] m IH]; simpl; [discriminate|].
  destruct (String.eqb k0 k') eqn:Hk'; simpl;
    destruct (String.eqb k0 k) eqn:Hk; auto.
Qed.

Lemma has_set_all (k : string) (m : JSMap.t)
    (mapping : list (string * string)) :
  JSMap.has k m = true -> JSMap.has k (set_all m mapping) = true.
Proof.
  unfold set_all. revert m.
  induction mapping as [|kv mapping IH]; intros m H; simpl; [exact H|].
  apply IH. now apply has_set.
Qed.

Lemma firstn_le_app {X} (i j : nat) (l : list X) :
  i <= j -> exists more, firstn j l = firstn i l ++ more.
Proof.
  revert j l. induction i as [|i IH]; intros j l Hle; simpl; [eauto|].
  destruct j as [|j]; [lia|]. destruct l as [|x l]; simpl.
  - exists []. reflexivity.
  - destruct (IH j l) as [more Hmore]; [lia|]. exists more. now rewrite Hmore.
Qed.

Lemma entries_after_app (bs more : list (list (string * string))) :
  entries_after (bs ++ more) = set_all (entries_after bs) (List.concat more).
Proof.
  unfold entries_after, set_all. now rewrite concat_app, fold_left_app.
Qed.

Lemma In_set (kv : string * string) (k v : string) (m : JSMap.t) :
  In kv (JSMap.set k v m) -> kv = (k, v) \/ In kv m.
Proof.
  induction m as [|[k0 v0] m IH]; simpl.
  - intros [<-|[]]. now left.
  - destruct (String.eqb k0 k) eqn:Hk; simpl.
    + apply String.eqb_eq in Hk as ->. intros [<-|H]; auto.
    + intros [<-|H]; auto. destruct (IH H); auto.
Qed.

Lemma In_set_all (kv : string * string) (m : JSMap.t)
    (mapping : list (string * string)) :
  In kv (set_all m mapping) ->
  In kv m \/
  exists kv0, In kv0 mapping /\
    kv = (manifest_key (fst kv0), manifest_value E (snd kv0)).
Proof.
  unfold set_all. revert m.
  induction mapping as [|kv0 mapping IH]; intros m H; simpl in *; [now left|].
  destruct (IH _ H) as [H1|(kv1 & H1 & H2)].
  - apply In_set in H1 as [->|H1]; [|now left]. right. exists kv0. auto.
  - right. exists kv1. auto.
Qed.

End Fold.

(** C1. The manifest handed to the template pass is one map, the one the
    seed of [scan] creates when the pipeline is assembled, updated in
    place: at each emission it holds what all the batches delivered so far
    have set, those of earlier generations included, and a key it held at
    an earlier emission it still holds. *)
Theorem manifest_accumulates (E : env) (t0 : time) (i : nat) (t : time)
    (l : Store.loc) (h : Store.t) :
  nth_error (emits (manifest_ E t0)) i = Some (t, (l, h)) ->
  l = fst seed /\
  Store.read h l
  = entries_after E (map snd (firstn (S i) (emits (mappings E t0)))) /\
  forall j t' l' h' k,
    j <= i ->
    nth_error (emits (manifest_ E t0)) j = Some (t', (l', h')) ->
    JSMap.has k (Store.read h' l') = true ->
    JSMap.has k (Store.read h l) = true.
Proof.
  intros H. destruct (manifest_emission E t0 i H) as (Hl & Hr & _).
  repeat split; auto.
  intros j t' l' h' k Hle Hj Hk.
  destruct (manifest_emission E t0 j Hj) as (_ & Hr' & _).
  rewrite Hr' in Hk. rewrite Hr.
  destruct (@firstn_le_app _ (S j) (S i) (emits (mappings E t0)))
    as [more Hmore]; [lia|].
  rewrite Hmore, map_app, entries_after_app. now apply has_set_all.
Qed.

(** The third value of [manifest$] in the watched run. *)
Lemma manifest_accumulates_witness :
  let E := Scenario.watching ["--dirty"; "--watch"] in
  let h := [[("main.css", "main.css"); ("bundle.js", "bundle.js");
             ("theme.css", "theme.css")]] in
  nth_error (emits (manifest_ E 0)) 2 = Some (24, (0, h)) /\
  0 = fst seed /\
  Store.read h 0
  = entries_after E (map snd (firstn 3 (emits (mappings E 0)))).
Proof.
  intros E h.
  assert (H : nth_error (emits (manifest_ E 0)) 2 = Some (24, (0, h)))
    by reflexivity.
  split; [exact H|].
  destruct (manifest_accumulates E 0 2 H) as (Hl & Hr & _).
  split; [exact Hl | exact Hr].
Defined.

(** In the watched run the style sheet [main.scss] is renamed to
    [theme.scss] after the first generation. The second generation
    transforms [theme.scss] only, and the template pass it starts at tick
    24 is handed the entry of [main.css], which no longer has a source,
    and the entry of [bundle.js], both set in the first generation. The
    three values of [manifest$] are one object. *)
Lemma manifest_carries_over_generations :
  let E := Scenario.watching ["--dirty"; "--watch"] in
  log (templates_ E 0)
  = [ (1, Started (Transform Style "src/main.scss" "dist/main.css"));
      (3, Finished (Transform Style "src/main.scss" "dist/main.css"));
      (22, Started (Transform Style "src/theme.scss" "dist/theme.css"));
      (24, Finished (Transform Style "src/theme.scss" "dist/theme.css"));
      (1, Started (Transform Script "src/bundle.ts" "dist/bundle.js"));
      (11, Finished (Transform Script "src/bundle.ts" "dist/bundle.js"));
      (3, Started (Rewrite [("main.css", "main.css")]));
      (11, Started (Rewrite [("main.css", "main.css");
                             ("bundle.js", "bundle.js")]));
      (24, Started (Rewrite [("main.css", "main.css");
                             ("bundle.js", "bundle.js");
                             ("theme.css", "theme.css")])) ] /\
  map (fun e => fst (snd e)) (emits (manifest_ E 0)) = [0; 0; 0].
Proof. split; reflexivity. Qed.

(** ** Where the entries of the manifest come from *)

Definition stage_pattern (s : stage) : string :=
  match s with
  | Style => "**/[!_]*.scss"
  | Script => "**/{bundle,search}.ts"
  end.

Definition stage_extension (s : stage) : string :=
  match s with Style => ".css" | Script => ".js" end.

Definition stage_transform (E : env) (s : stage)
  : string -> string -> source string :=
  match s with
  | Style => transformStyle E
  | Script => transformScript E
  end.

Definition stage_observable (E : env) (s : stage)
  : obs event (string * string) :=
  match s with
  | Style => stylesheets_ E
  | Script => javascripts_ E
  end.

(** The pair a stage emits for a file the resolver lists: the file with
    its extension replaced, and what the transform of the file reports. *)
Definition stage_output (E : env) (s : stage) (kv : string * string)
  : Prop :=
  exists file ts tr te,
    In (tr, file) (m_emits (resolve E (stage_pattern s) "src" ts)) /\
    fst kv = ext (platform E) file (stage_extension s) /\
    In (te, snd kv)
      (m_emits
         (stage_transform E s ("src/" ++ file)
            (ext (platform E) (base E ++ "/" ++ file) (stage_extension s))
            tr)).

Lemma stage_emits (E : env) (s : stage) (ts t : time)
    (kv : string * string) :
  In (t, kv) (emits (stage_observable E s ts)) -> stage_output E s kv.
Proof.
  destruct s; cbn [stage_observable]; unfold stylesheets_, javascripts_;
    intros H;
    apply In_mergeMap_emits in H as (tr & file & Hfile & H);
    destruct kv as [k v]; apply In_zip_pairs in H as [[ta Ha] [tb Hb]];
    destruct Ha as [[= _ <-]|[]];
    exists file, ts, tr, tb; auto.
Qed.

(** A batch is all a stage has emitted when it completes. *)
Lemma batch_complete {A} (E : env) (pattern : string)
    (observable_ : obs event A) (t0 t : time) (b : list A) :
  In (t, b) (emits (batches E pattern observable_ t0)) ->
  exists ts,
    done (observable_ ts) = Some t /\ b = map snd (emits (observable_ ts)).
Proof.
  unfold batches. intros H.
  apply In_switchMap_emits in H as (i & ts & a & _ & H & _).
  exists ts. simpl in H. destruct (done (observable_ ts)) as [d|]; [|easy].
  destruct H as [[= <- <-]|[]]. auto.
Qed.

Lemma mapping_complete (E : env) (t0 t : time)
    (b : list (string * string)) :
  In (t, b) (emits (mappings E t0)) ->
  exists s ts,
    done (stage_observable E s ts) = Some t /\
    b = map snd (emits (stage_observable E s ts)).
Proof.
  unfold mappings. intros H.
  apply In_merge_emits in H as (o & [<-|[<-|[]]] & H);
    apply batch_complete in H as (ts & H1 & H2).
  - exists Style, ts. auto.
  - exists Script, ts. auto.
Qed.

Lemma In_firstn {X} (n : nat) (l : list X) (x : X) :
  In x (firstn n l) -> In x l.
Proof.
  revert l. induction n as [|n IH]; intros [|y l]; simpl; try tauto.
  intros [->|H]; auto.
Qed.

(** Every entry of the manifest comes from a file the resolver lists for
    one of the two stages: its key is what [ext] makes of the file and the
    extension of the stage, and its value is a path the transform of the
    file reports; in both the first backslash is replaced by a slash, and
    in the value the first occurrence of the output root is removed. *)
Theorem manifest_entry_origin (E : env) (t0 t : time) (l : Store.loc)
    (h : Store.t) (k v : string) :
  In (t, (l, h)) (emits (manifest_ E t0)) ->
  In (k, v) (Store.read h l) ->
  exists s k0 v0,
    stage_output E s (k0, v0) /\
    k = manifest_key k0 /\
    v = manifest_value E v0.
Proof.
  intros H Hkv. apply In_nth_error in H as (i & H).
  apply manifest_emission in H as (_ & Hr & _). rewrite Hr in Hkv.
  apply In_set_all in Hkv as [[]|([k0 v0] & Hin & [= -> ->])].
  apply in_concat in Hin as (b & Hb & Hin).
  apply in_map_iff in Hb as ([tb b'] & Hb' & Hb). simpl in Hb'. subst b'.
  apply In_firstn, mapping_complete in Hb as (s & ts & _ & ->).
  apply in_map_iff in Hin as ([t1 kv] & Hkv & Hin). simpl in Hkv. subst kv.
  apply stage_emits in Hin. exists s, k0, v0. auto.
Qed.

(** The entry of the style sheet [main.scss]. *)
Lemma manifest_entry_origin_witness :
  let E := Scenario.oneshot [] in
  let h := [[("main.css", "main.css")]] in
  In (3, (0, h)) (emits (manifest_ E 0)) /\
  In ("main.css", "main.css") (Store.read h 0) /\
  exists s k0 v0,
    stage_output E s (k0, v0) /\
    "main.css" = manifest_key k0 /\
    "main.css" = manifest_value E v0.
Proof.
  intros E h.
  assert (H1 : In (3, (0, h)) (emits (manifest_ E 0))) by (left; reflexivity).
  assert (H2 : In ("main.css", "main.css") (Store.read h 0))
    by (left; reflexivity).
  split; [exact H1|]. split; [exact H2|].
  exact (manifest_entry_origin E 0 3 0 h "main.css" "main.css" H1 H2).
Defined.

(** In the one-shot run, for the style sheet [main.scss] and the script
    [bundle.ts] the keys are [main.css] and [bundle.js], which match
    neither pattern, as they end neither in [.scss] nor in [bundle.ts] or
    [search.ts]; and [main.scss] and [bundle.ts] are not keys. *)
Lemma manifest_keys_are_not_sources :
  let E := Scenario.oneshot [] in
  Scenario.manifests E 0
  = [ (3, [("main.css", "main.css")]);
      (11, [("main.css", "main.css"); ("bundle.js", "bundle.js")]) ] /\
  map (fun k => JS.endsWith k ".scss" || JS.endsWith k "bundle.ts"
                  || JS.endsWith k "search.ts")
    ["main.css"; "bundle.js"] = [false; false] /\
  map (fun k => JSMap.has k [("main.css", "main.css");
                             ("bundle.js", "bundle.js")])
    ["main.scss"; "bundle.ts"] = [false; false].
Proof. repeat split; reflexivity. Qed.

(** Where the extension occurs only at the end of the name, [ext] gives
    the name with the new extension. *)
Lemma ext_replaces_extension (pf : Path.platform)
    (file stem extension : string) :
  JS.split_first (Path.extname pf file) file = Some (stem, EmptyString) ->
  JS.has_char "$" extension = false ->
  ext pf file extension = (stem ++ extension)%string.
Proof.
  intros Hsplit Hext. unfold ext, JS.replace. rewrite Hsplit.
  rewrite get_substitution_plain by exact Hext.
  now rewrite append_empty_r.
Qed.

(** Where it occurs earlier as well, the earlier occurrence is replaced. *)
Lemma ext_replaces_first_occurrence :
  ext Path.Posix "x.scss/main.scss" ".css" = "x.css/main.scss".
Proof. reflexivity. Qed.

(** C3. [ext] replaces the first occurrence of the text of the extension,
    which is not the extension of the file where a directory of the path
    ends in the same text. In the tree with the directories [x.scss] and
    [x.css] the resolver lists the style sheets [x.scss/main.scss] and
    [x.css/main.scss]. The first is entered under the key
    [x.css/main.scss], the path of the second: this key is a style input,
    and the value of its entry, the destination the transform was given
    and reports, has the extension [.scss]. *)
Theorem style_input_key_with_scss_value :
  let E := Scenario.dotted [] in
  let inputs :=
    map snd (m_emits (resolve E (stage_pattern Style) "src" 0)) in
  inputs = ["x.scss/main.scss"; "x.css/main.scss"] /\
  ext (platform E) "x.scss/main.scss" ".css" = "x.css/main.scss" /\
  ext (platform E) (base E ++ "/" ++ "x.scss/main.scss") ".css"
  = "dist/x.css/main.scss" /\
  Scenario.manifests E 0
  = [ (3, [("x.css/main.scss", "x.css/main.scss");
           ("x.css/main.css", "x.css/main.css")]);
      (11, [("x.css/main.scss", "x.css/main.scss");
            ("x.css/main.css", "x.css/main.css");
            ("bundle.js", "bundle.js")]) ] /\
  In "x.css/main.scss" inputs /\
  JS.endsWith "x.css/main.scss" ".scss" = true /\
  Path.extname (platform E) "x.css/main.scss" = ".scss".
Proof.
  intros E inputs.
  split; [reflexivity|]. split; [reflexivity|]. split; [reflexivity|].
  split; [reflexivity|]. split; [right; left; reflexivity|].
  split; reflexivity.
Qed.

End ManifestFacts.

(* ===================================================================== *)
(** * The order of the phases *)
(* ===================================================================== *)

Module PhaseFacts.

Import Rx Build RxFacts ManifestFacts.

Local Open Scope list_scope.
Local Open Scope nat_scope.

(** The collaborators deliver nothing before they are subscribed to. *)
Record env_causal (E : env) : Prop := {
  resolve_causal : forall pattern cwd, Causal_source (resolve E pattern cwd);
  glob_causal : forall pattern cwd, Causal_source (glob E pattern cwd);
  watch_causal : forall files cwd, Causal_source (watch E files cwd);
  copyAll_causal : forall pattern o, Causal_source (copyAll E pattern o);
  transformStyle_causal :
    forall from to, Causal_source (transformStyle E from to);
  transformScript_causal :
    forall from to, Causal_source (transformScript E from to)
}.

Definition is_asset_event (e : event) : Prop :=
  match e with
  | Started (AssetCopy _ _ _) | Finished (AssetCopy _ _ _) => True
  | _ => False
  end.

Definition is_transform_event (e : event) : Prop :=
  match e with
  | Started (Transform _ _ _) | Finished (Transform _ _ _) => True
  | _ => False
  end.

Definition is_rewrite_event (e : event) : Prop :=
  match e with
  | Started (Rewrite _) | Finished (Rewrite _) => True
  | _ => False
  end.

Section Pipeline.

Variable E : env.

Lemma labelled_assets : labelled is_asset_event (assets_ E).
Proof.
  unfold assets_. apply labelled_concat, Forall_map, Forall_forall.
  intros [[[pattern from] to] transform] _.
  apply labelled_instrumented; exact I.
Qed.

Lemma labelled_stage (s : stage) :
  labelled is_transform_event (stage_observable E s).
Proof.
  destruct s; cbn [stage_observable]; unfold stylesheets_, javascripts_;
    (apply labelled_mergeMap; [apply labelled_silent|]);
    intros file; apply labelled_zip;
    try apply labelled_of; apply labelled_instrumented; exact I.
Qed.

Lemma labelled_triggers (P : event -> Prop) (pattern : string) :
  labelled P (triggers E pattern).
Proof.
  unfold triggers, startWith. apply labelled_concat.
  constructor; [apply labelled_of|]. constructor; [|constructor].
  intros t. unfold defer. destruct (argv_includes E "--watch").
  - apply labelled_switchMap; [apply labelled_silent|].
    intros files. apply labelled_silent.
  - apply labelled_EMPTY.
Qed.

Lemma labelled_manifest : labelled is_transform_event (manifest_ E).
Proof.
  unfold manifest_, mappings. apply labelled_scan, labelled_merge.
  constructor; [|constructor; [|constructor]]; unfold batches;
    (apply labelled_switchMap; [apply labelled_triggers|]); intros _;
    apply labelled_toArray.
  - exact (labelled_stage Style).
  - exact (labelled_stage Script).
Qed.

Lemma labelled_templates :
  labelled (fun e => is_transform_event e \/ is_rewrite_event e)
    (templates_ E).
Proof.
  unfold templates_. apply labelled_switchMap.
  - intros t. eapply Forall_impl; [|apply labelled_manifest]. simpl. tauto.
  - intros [l h]. apply labelled_instrumented; right; exact I.
Qed.

Hypothesis HE : env_causal E.

Lemma causal_assets : Causal (assets_ E).
Proof.
  unfold assets_. apply causal_concat, Forall_map, Forall_forall.
  intros [[[pattern from] to] transform] _.
  apply causal_instrumented, (copyAll_causal HE).
Qed.

Lemma causal_stage (s : stage) : Causal (stage_observable E s).
Proof.
  destruct s; cbn [stage_observable]; unfold stylesheets_, javascripts_;
    (apply causal_mergeMap;
     [apply causal_silent, (resolve_causal HE)|]);
    intros file; apply causal_zip; try apply causal_of;
    apply causal_instrumented.
  - apply (transformStyle_causal HE).
  - apply (transformScript_causal HE).
Qed.

Lemma causal_triggers (pattern : string) : Causal (triggers E pattern).
Proof.
  unfold triggers. apply causal_startWith.
  intros t. unfold defer. destruct (argv_includes E "--watch").
  - apply causal_switchMap; [apply causal_silent, (glob_causal HE)|].
    intros files. apply causal_silent, (watch_causal HE).
  - apply causal_EMPTY.
Qed.

Lemma causal_manifest : Causal (manifest_ E).
Proof.
  unfold manifest_, mappings. apply causal_scan, causal_merge.
  constructor; [|constructor; [|constructor]]; unfold batches;
    (apply causal_switchMap; [apply causal_triggers|]); intros _;
    apply causal_toArray.
  - exact (causal_stage Style).
  - exact (causal_stage Script).
Qed.

Lemma causal_template_pass (m : Store.loc * Store.t) :
  Causal (template_pass E m).
Proof.
  destruct m as [l h]. apply causal_instrumented, (copyAll_causal HE).
Qed.

Lemma causal_templates : Causal (templates_ E).
Proof.
  unfold templates_.
  apply causal_switchMap; [apply causal_manifest|].
  apply causal_template_pass.
Qed.

End Pipeline.

(** ** The collaborators of the concrete runs *)

Lemma causal_after {A} (delay : nat) (vs : list A) :
  Causal_source (Scenario.after delay vs).
Proof.
  intros t. split; simpl.
  - apply Forall_forall. intros e He. apply in_map_iff in He as (v & <- & _).
    simpl. lia.
  - intros d [= <-]. lia.
Qed.

Lemma causal_after_open {A} (delay : nat) (vs : list A) :
  Causal_source (Scenario.after_open delay vs).
Proof.
  intros t. split; simpl; [|discriminate].
  apply Forall_forall. intros e He. apply in_map_iff in He as (v & <- & _).
  simpl. lia.
Qed.

Lemma oneshot_causal (args : list string) :
  env_causal (Scenario.oneshot args).
Proof.
  constructor; unfold Scenario.oneshot;
    cbn [resolve glob watch copyAll transformStyle transformScript]; intros.
  - destruct (Scenario.is_style_pattern pattern); apply causal_after.
  - destruct (Scenario.is_style_pattern pattern); apply causal_after.
  - apply causal_after_open.
  - destruct (copy_watch o); [apply causal_after_open | apply causal_after].
  - apply causal_after.
  - apply causal_after.
Qed.

Lemma watching_causal (args : list string) :
  env_causal (Scenario.watching args).
Proof.
  constructor; unfold Scenario.watching, Scenario.oneshot;
    cbn [resolve glob watch copyAll transformStyle transformScript]; intros.
  - intros t. destruct (Scenario.is_style_pattern pattern);
      [destruct (t <? 10)|]; apply causal_after.
  - destruct (Scenario.is_style_pattern pattern); apply causal_after.
  - destruct (existsb (String.eqb "main.scss") files);
      apply causal_after_open.
  - destruct (copy_watch o); [apply causal_after_open | apply causal_after].
  - apply causal_after.
  - apply causal_after.
Qed.

Lemma rewriting_causal (args : list string) :
  env_causal (Scenario.rewriting args).
Proof.
  constructor; unfold Scenario.rewriting, Scenario.oneshot;
    cbn [resolve glob watch copyAll transformStyle transformScript]; intros.
  - destruct (Scenario.is_style_pattern pattern); apply causal_after.
  - destruct (Scenario.is_style_pattern pattern); apply causal_after.
  - destruct (existsb (String.eqb "main.scss") files);
      apply causal_after_open.
  - destruct (copy_watch o); [apply causal_after_open | apply causal_after].
  - intros t. apply causal_after.
  - apply causal_after.
Qed.

(** ** The template pass and the manifest *)

(** A template pass starts at every value of [manifest$], with the
    entries the map holds at that tick. *)
Lemma rewrite_started (E : env) (t0 : time) (i : nat) (t : time)
    (l : Store.loc) (h : Store.t) :
  nth_error (emits (manifest_ E t0)) i = Some (t, (l, h)) ->
  In (t, Started (Rewrite (Store.read h l))) (log (templates_ E t0)).
Proof.
  intros H. unfold templates_. apply In_switchMap_log. right.
  exists i, t, (l, h). split; [exact H|]. split.
  - unfold template_pass, traced, instrumented. cbn [log]. now left.
  - apply kept_at_start.
Qed.

(** The values of [manifest$] come in the order of their ticks. *)
Lemma ordered_manifest (E : env) (t0 : time) :
  ordered (emits (manifest_ E t0)).
Proof.
  unfold manifest_, scan. cbn [emits].
  apply ordered_times with (l := emits (mappings E t0)).
  - symmetry. apply scan_list_times.
  - unfold mappings, merge. cbn [emits]. apply ordered_tsort.
Qed.

(** Without [--watch] a stage is started once, at the subscription. *)
Lemma triggers_oneshot (E : env) (pattern : string) (t0 : time) :
  argv_includes E "--watch" = false ->
  emits (triggers E pattern t0) = [(t0, "*"%string)].
Proof.
  intros Hw. unfold triggers, startWith, defer, concat, of_, EMPTY.
  cbn [done emits map]. rewrite Hw. reflexivity.
Qed.

Lemma stage_in_batches_oneshot {A} (E : env) (pattern : string)
    (observable_ : obs event A) (t0 : time) (x : time * event) :
  argv_includes E "--watch" = false ->
  In x (log (observable_ t0)) ->
  In x (log (batches E pattern observable_ t0)).
Proof.
  intros Hw Hx. unfold batches. apply In_switchMap_log. right.
  exists 0, t0, "*"%string. rewrite (triggers_oneshot E pattern t0 Hw).
  split; [reflexivity|]. split; [exact Hx | reflexivity].
Qed.

Lemma mappings_in_templates (E : env) (t0 : time) (x : time * event) :
  In x (log (mappings E t0)) -> In x (log (templates_ E t0)).
Proof.
  intros H. unfold templates_. apply In_switchMap_log. left. exact H.
Qed.

Lemma stage_in_templates_oneshot (E : env) (s : stage) (t0 : time)
    (x : time * event) :
  argv_includes E "--watch" = false ->
  In x (log (stage_observable E s t0)) ->
  In x (log (templates_ E t0)).
Proof.
  intros Hw Hx. apply mappings_in_templates.
  unfold mappings, merge. cbn [log map List.concat].
  rewrite !in_app_iff.
  destruct s; cbn [stage_observable] in Hx.
  - left. now apply stage_in_batches_oneshot.
  - right. left. now apply stage_in_batches_oneshot.
Qed.

(** C6. Without [--dirty], when a transform starts every copy pass of
    [assets$] has completed. With [--dirty] no copy pass is made, and in a
    one-shot build the two stages subscribed to at the tick the build
    itself is subscribed to run as part of the build. *)
Theorem copy_phase_is_a_barrier (E : env) (t0 : time) :
  env_causal E ->
  (argv_includes E "--dirty" = false ->
   forall t s from to,
     In (t, Started (Transform s from to)) (log (build_ E t0)) ->
     forall p, In p (asset_passes E) ->
     exists d,
       d <= t /\ In (d, Finished (asset_call p)) (log (build_ E t0))) /\
  (argv_includes E "--dirty" = true ->
   (forall x, In x (log (build_ E t0)) -> ~ is_asset_event (snd x)) /\
   (argv_includes E "--watch" = false ->
    forall s x,
      In x (log (stage_observable E s t0)) -> In x (log (build_ E t0)))).
Proof.
  intros HE. split; intros Hdirty; unfold build_; rewrite Hdirty.
  - intros t s from to Hin p Hp.
    apply In_concat_log in Hin as [Hin|(d0 & Hd0 & Hin)].
    { pose proof (labelled_assets E t0) as Hl. rewrite Forall_forall in Hl.
      destruct (Hl _ Hin). }
    apply In_concat_log in Hin as [Hin|(d1 & _ & [])].
    assert (Hle : d0 <= t).
    { destruct (causal_templates HE d0) as (_ & _ & Hl).
      rewrite Forall_forall in Hl. exact (Hl _ Hin). }
    assert (Hpass : In (asset_pass E p) (map (asset_pass E) (asset_passes E)))
      by now apply in_map.
    unfold assets_ in Hd0.
    assert (Hcausal : Forall Causal (map (asset_pass E) (asset_passes E))).
    { apply Forall_map, Forall_forall.
      intros [[[pattern from'] to'] transform] _.
      apply causal_instrumented, (copyAll_causal HE). }
    destruct (@concat_all_done _ _ _ t0 d0 Hcausal Hd0 _ Hpass)
      as (ts & d' & Hdone & Hle' & Hlog).
    exists d'. split; [lia|].
    apply In_concat_log. left. apply Hlog.
    destruct p as [[[pattern from'] to'] transform].
    unfold asset_pass, traced, instrumented in Hdone |- *.
    cbn [done log] in Hdone |- *. rewrite Hdone. right. now left.
  - assert (Hlog : log (merge [templates_ E] t0) = log (templates_ E t0)).
    { unfold merge. cbn [log map List.concat]. apply app_nil_r. }
    rewrite Hlog. split.
    + intros x Hx Hasset.
      pose proof (labelled_templates E t0) as Hl. rewrite Forall_forall in Hl.
      specialize (Hl _ Hx). destruct x as [t [[]|[]]]; simpl in *; tauto.
    + intros Hw s x Hx. now apply stage_in_templates_oneshot with s.
Qed.

(** The one-shot run: the transform of the style sheet starts at tick 37,
    the last copy pass has completed at tick 36. *)
Lemma copy_phase_is_a_barrier_witness :
  let E := Scenario.oneshot [] in
  argv_includes E "--dirty" = false /\
  In (37, Started (Transform Style "src/main.scss" "dist/main.css"))
    (log (build_ E 0)) /\
  (exists d,
     d <= 37 /\
     In (d, Finished (AssetCopy "LICENSE" "src/assets/javascripts"
                        "dist/assets/javascripts"))
       (log (build_ E 0))) /\
  argv_includes (Scenario.oneshot ["--dirty"%string]) "--dirty" = true /\
  forall x,
    In x (log (build_ (Scenario.oneshot ["--dirty"%string]) 0)) ->
    ~ is_asset_event (snd x).
Proof.
  intros E.
  assert (Hd : argv_includes E "--dirty" = false) by reflexivity.
  assert (Hin : In (37, Started (Transform Style "src/main.scss"
                                   "dist/main.css")) (log (build_ E 0))).
  { vm_compute. do 24 right. left. reflexivity. }
  split; [exact Hd|]. split; [exact Hin|]. split.
  - destruct (@copy_phase_is_a_barrier E 0 (oneshot_causal [])) as [H _].
    apply (H Hd 37 Style "src/main.scss" "dist/main.css" Hin
             ("LICENSE", "src/assets/javascripts", "dist/assets/javascripts",
              minsvg_transform E))%string.
    unfold asset_passes. do 11 right. left. reflexivity.
  - assert (Hd' : argv_includes (Scenario.oneshot ["--dirty"%string])
                    "--dirty" = true) by reflexivity.
    split; [exact Hd'|].
    destruct (@copy_phase_is_a_barrier (Scenario.oneshot ["--dirty"%string])
                0 (oneshot_causal ["--dirty"%string])) as [_ H].
    exact (proj1 (H Hd')).
Defined.

(** What is kept of the subscription made for the [i]-th value of an
    ordered observable is not later than any later value. *)
Lemma kept_until_later {X} (outer : list (time * X)) (i : nat)
    (ti tau : time) (a : X) :
  ordered outer ->
  nth_error outer i = Some (ti, a) ->
  kept (next_time (skipn (S i) outer)) ti tau = true ->
  forall j tj b, i < j -> nth_error outer j = Some (tj, b) -> tau <= tj.
Proof.
  intros Hord Hi Hk j tj b Hlt Hj.
  pose proof (@ordered_nth _ outer i j _ _ Hord (Nat.lt_le_incl _ _ Hlt)
                Hi Hj) as Hij.
  simpl in Hij.
  destruct (skipn (S i) outer) as [|[tn c] rest] eqn:Hskip.
  - assert (Hlen : List.length outer <= S i).
    { destruct (Nat.le_gt_cases (List.length outer) (S i)) as [Hle|Hgt];
        [exact Hle|].
      apply (f_equal (@List.length _)) in Hskip.
      rewrite length_skipn in Hskip. simpl in Hskip. lia. }
    assert (Hnone : nth_error outer j = None)
      by (apply nth_error_None; lia).
    congruence.
  - assert (Hn : nth_error outer (S i) = Some (tn, c)).
    { rewrite <- (firstn_skipn (S i) outer) at 1.
      rewrite nth_error_app2; rewrite length_firstn.
      - assert (Hlen : S i < List.length outer \/ List.length outer <= S i)
          by lia.
        destruct Hlen as [Hlen|Hlen].
        + rewrite Nat.min_l by lia. rewrite Nat.sub_diag, Hskip. reflexivity.
        + rewrite skipn_all2 in Hskip by exact Hlen. discriminate.
      - apply Nat.le_min_l. }
    pose proof (@ordered_nth _ outer (S i) j _ _ Hord Hlt Hn Hj) as Hle.
    simpl in Hle.
    cbn [next_time kept] in Hk. apply orb_true_iff in Hk as [Hk|Hk].
    + apply Nat.ltb_lt in Hk. lia.
    + apply Nat.leb_le in Hk. lia.
Qed.

(** The call of [copyAll] made for the value [(l, h)] of [manifest$]:
    the templates, with the transform that reads the map [l]. *)
Definition rewrite_call (E : env) (l : Store.loc) (h : Store.t)
  : source string :=
  copyAll E "**/*.{html,xml}"
    {| copy_from := "src"; copy_to := base E;
       copy_watch := argv_includes E "--watch";
       copy_transform := Some (template_transform E h l) |}.

(** C9. At every value of [manifest$] a template pass is started, with
    the entries all batches so far have set. What [templates$] delivers
    comes from the pass of the latest value: a template written at a tick,
    and a pass completed at a tick, belong to the call of [copyAll] made
    for a value of [manifest$], with the transform that reads the map of
    this value, and no later value has arrived before that tick. So
    nothing is seen of a pass once the next value has arrived, in watch
    mode as in a one-shot build. *)
Theorem template_pass_uses_latest_manifest (E : env) (t0 : time) :
  env_causal E ->
  (forall i t l h,
     nth_error (emits (manifest_ E t0)) i = Some (t, (l, h)) ->
     In (t, Started (Rewrite (Store.read h l))) (log (templates_ E t0)) /\
     Store.read h l
     = entries_after E (map snd (firstn (S i) (emits (mappings E t0))))) /\
  (forall tau text,
     In (tau, text) (emits (templates_ E t0)) ->
     exists i ti l h,
       nth_error (emits (manifest_ E t0)) i = Some (ti, (l, h)) /\
       In (tau, text) (m_emits (rewrite_call E l h ti)) /\
       ti <= tau /\
       forall j tj mj,
         i < j -> nth_error (emits (manifest_ E t0)) j = Some (tj, mj) ->
         tau <= tj) /\
  (forall tau m,
     In (tau, Finished (Rewrite m)) (log (templates_ E t0)) ->
     exists i ti l h,
       nth_error (emits (manifest_ E t0)) i = Some (ti, (l, h)) /\
       m = Store.read h l /\
       m_done (rewrite_call E l h ti) = Some tau /\
       ti <= tau /\
       forall j tj mj,
         i < j -> nth_error (emits (manifest_ E t0)) j = Some (tj, mj) ->
         tau <= tj).
Proof.
  intros HE. split; [|split].
  - intros i t l h H. split; [now apply rewrite_started with i|].
    apply (manifest_emission E t0 i H).
  - intros tau text H. unfold templates_ in H.
    apply In_switchMap_emits in H as (i & ti & [l h] & Hi & H & Hk).
    exists i, ti, l, h. split; [exact Hi|]. split; [exact H|].
    split.
    + destruct (causal_template_pass HE (l, h) ti) as (He & _ & _).
      rewrite Forall_forall in He. exact (He _ H).
    + exact (@kept_until_later _ _ _ _ _ _ (ordered_manifest E t0) Hi Hk).
  - intros tau m H. unfold templates_ in H.
    apply In_switchMap_log in H as [H|(i & ti & [l h] & Hi & H & Hk)].
    { pose proof (labelled_manifest E t0) as Hl. rewrite Forall_forall in Hl.
      destruct (Hl _ H). }
    exists i, ti, l, h. split; [exact Hi|].
    assert (Hle : ti <= tau).
    { destruct (causal_template_pass HE (l, h) ti) as (_ & _ & Hl).
      rewrite Forall_forall in Hl. exact (Hl _ H). }
    unfold template_pass, traced, instrumented in H. cbn [log] in H.
    destruct H as [[= _]|H]. fold (rewrite_call E l h) in H.
    destruct (m_done (rewrite_call E l h ti)) as [d|]; [|destruct H].
    destruct H as [[= -> <-]|[]].
    split; [reflexivity|]. split; [reflexivity|]. split; [exact Hle|].
    exact (@kept_until_later _ _ _ _ _ _ (ordered_manifest E t0) Hi Hk).
Qed.

(** A watched run in which a pass is dropped. The values of [manifest$]
    arrive at the ticks 3, 11 and 24. The pass started at tick 3 would
    write its template at tick 13; it is dropped at tick 11, and nothing
    is written at tick 13. The pass started at tick 11 writes at tick 21,
    with the digest of the first run of the style transform; the pass
    started at tick 24, for the style sheet that has changed, writes at
    tick 34 with the digest of the second run. And the one-shot run with
    [--dirty], where the pass started at tick 3 completes at tick 6. *)
Lemma template_pass_uses_latest_manifest_witness :
  let E := Scenario.rewriting ["--dirty"; "--watch"; "--optimize"]%string in
  let first := [("main.css", "main.1a.css")]%string in
  let link := fun name =>
    (banner ++ "<link href=" ++ JS.quoted JS.DQ name ++ ">")%string in
  map fst (emits (manifest_ E 0)) = [3; 11; 24] /\
  In (3, Started (Rewrite first)) (log (templates_ E 0)) /\
  m_emits (rewrite_call E 0 [first] 3) = [(13, link "main.1a.css"%string)] /\
  emits (templates_ E 0)
  = [(21, link "main.1a.css"%string); (34, link "main.2b.css"%string)] /\
  (exists i ti l h,
     nth_error (emits (manifest_ E 0)) i = Some (ti, (l, h)) /\
     In (21, link "main.1a.css"%string) (m_emits (rewrite_call E l h ti)) /\
     ti <= 21 /\
     forall j tj mj,
       i < j -> nth_error (emits (manifest_ E 0)) j = Some (tj, mj) ->
       21 <= tj) /\
  let E1 := Scenario.oneshot ["--dirty"%string] in
  In (6, Finished (Rewrite [("main.css", "main.css")%string]))
    (log (templates_ E1 0)) /\
  exists i ti l h,
    nth_error (emits (manifest_ E1 0)) i = Some (ti, (l, h)) /\
    [("main.css", "main.css")%string] = Store.read h l /\
    m_done (rewrite_call E1 l h ti) = Some 6 /\
    ti <= 6 /\
    forall j tj mj,
      i < j -> nth_error (emits (manifest_ E1 0)) j = Some (tj, mj) ->
      6 <= tj.
Proof.
  intros E first link.
  assert (Hw : emits (templates_ E 0)
               = [(21, link "main.1a.css"%string);
                  (34, link "main.2b.css"%string)]) by reflexivity.
  split; [reflexivity|]. split; [vm_compute; do 6 right; left; reflexivity|].
  split; [reflexivity|]. split; [exact Hw|]. split.
  - destruct (@template_pass_uses_latest_manifest E 0
                (rewriting_causal _)) as (_ & H & _).
    apply (H 21 (link "main.1a.css"%string)).
    rewrite Hw. left. reflexivity.
  - intros E1.
    assert (Hin : In (6, Finished (Rewrite [("main.css", "main.css")%string]))
                    (log (templates_ E1 0))).
    { vm_compute. do 5 right. left. reflexivity. }
    split; [exact Hin|].
    destruct (@template_pass_uses_latest_manifest E1 0
                (oneshot_causal ["--dirty"%string])) as (_ & _ & H).
    exact (H 6 _ Hin).
Defined.

(** C2. A template pass starts at every value of [manifest$], that is
    each time the batch of one stage has been folded, and is handed what
    the batches folded so far have set. A batch is all that one run of a
    stage has emitted by its completion, never a part of it. *)
Theorem rewriter_starts_at_every_fold (E : env) (t0 : time) (i : nat)
    (t : time) (l : Store.loc) (h : Store.t) :
  nth_error (emits (manifest_ E t0)) i = Some (t, (l, h)) ->
  In (t, Started (Rewrite (Store.read h l))) (log (templates_ E t0)) /\
  Store.read h l
  = entries_after E (map snd (firstn (S i) (emits (mappings E t0)))) /\
  forall tb b,
    In (tb, b) (emits (mappings E t0)) ->
    exists s ts,
      done (stage_observable E s ts) = Some tb /\
      b = map snd (emits (stage_observable E s ts)).
Proof.
  intros H. split; [now apply rewrite_started with i|].
  split; [apply (manifest_emission E t0 i H)|].
  intros tb b Hb. now apply mapping_complete with t0.
Qed.

(** The first value of [manifest$] in the one-shot run. *)
Lemma rewriter_starts_at_every_fold_witness :
  let E := Scenario.oneshot ["--dirty"%string] in
  let h := [[("main.css", "main.css")%string]] in
  nth_error (emits (manifest_ E 0)) 0 = Some (3, (0, h)) /\
  In (3, Started (Rewrite (Store.read h 0))) (log (templates_ E 0)).
Proof.
  intros E h.
  assert (H : nth_error (emits (manifest_ E 0)) 0 = Some (3, (0, h)))
    by reflexivity.
  split; [exact H|].
  exact (proj1 (@rewriter_starts_at_every_fold E 0 0 3 0 h H)).
Defined.

(** In the one-shot run the style sheet is compiled by tick 3 and the
    script by tick 11. The template pass started at tick 3 is handed a
    manifest with the entry of the style sheet alone; it writes its
    template at tick 6 and completes, before the batch of the scripts is
    folded at tick 11. *)
Lemma rewriter_starts_on_style_batch_alone :
  let E := Scenario.oneshot ["--dirty"%string] in
  log (templates_ E 0)
  = [ (1, Started (Transform Style "src/main.scss" "dist/main.css"));
      (3, Finished (Transform Style "src/main.scss" "dist/main.css"));
      (1, Started (Transform Script "src/bundle.ts" "dist/bundle.js"));
      (11, Finished (Transform Script "src/bundle.ts" "dist/bundle.js"));
      (3, Started (Rewrite [("main.css", "main.css")]));
      (6, Finished (Rewrite [("main.css", "main.css")]));
      (11, Started (Rewrite [("main.css", "main.css");
                             ("bundle.js", "bundle.js")]));
      (14, Finished (Rewrite [("main.css", "main.css");
                              ("bundle.js", "bundle.js")])) ]%string /\
  emits (templates_ E 0)
  = [ (6, "dist/**/*.{html,xml}"); (14, "dist/**/*.{html,xml}") ]%string /\
  Scenario.manifests E 0
  = [ (3, [("main.css", "main.css")]);
      (11, [("main.css", "main.css"); ("bundle.js", "bundle.js")]) ]%string.
Proof. repeat split; reflexivity. Qed.

End PhaseFacts.

(* ===================================================================== *)
(** * More on [ext] *)
(* ===================================================================== *)

Unset Implicit Arguments.

Module ExtFacts.

Local Open Scope list_scope.
Local Open Scope nat_scope.

(** Whether every code unit of [s] passes [f]. *)
Fixpoint all_chars (f : ascii -> bool) (s : string) : bool :=
  match s with
  | EmptyString => true
  | String c s' => f c && all_chars f s'
  end.

(** A code unit that is neither a dot nor a path separator. *)
Definition plain (pf : Path.platform) (c : ascii) : bool :=
  negb (Path.isPathSeparator pf c) && negb (Ascii.eqb c ".").

Definition plain_at (pf : Path.platform) (e : nat * ascii) : Prop :=
  Path.isPathSeparator pf (snd e) = false /\ Ascii.eqb (snd e) "." = false.

Lemma plain_spec (pf : Path.platform) (c : ascii) :
  plain pf c = true ->
  Path.isPathSeparator pf c = false /\ Ascii.eqb c "." = false.
Proof.
  unfold plain. intros H. apply andb_true_iff in H as [H1 H2].
  now rewrite negb_true_iff in H1, H2.
Qed.

Lemma indexed_plain (pf : Path.platform) (x : string) (k : nat) :
  all_chars (plain pf) x = true -> Forall (plain_at pf) (Path.indexed k x).
Proof.
  revert k. induction x as [|c x IH]; intros k H; simpl; [constructor|].
  simpl in H. apply andb_true_iff in H as [Hc Hx].
  constructor; [now apply plain_spec | now apply IH].
Qed.

Lemma indexed_app (k : nat) (a b : string) :
  Path.indexed k (a ++ b)%string
  = Path.indexed k a ++ Path.indexed (k + length a) b.
Proof.
  revert k. induction a as [|c a IH]; intros k; simpl.
  - now rewrite Nat.add_0_r.
  - rewrite IH. do 3 f_equal. lia.
Qed.

Lemma length_indexed (k : nat) (x : string) :
  List.length (Path.indexed k x) = length x.
Proof.
  revert k. induction x as [|c x IH]; intros k; simpl; [|rewrite IH]; auto.
Qed.

(** The scan starts at the last code unit. *)
Lemma rev_indexed_head (pf : Path.platform) (x : string) (k : nat) :
  x <> EmptyString ->
  all_chars (plain pf) x = true ->
  exists cl rest,
    rev (Path.indexed k x) = (k + length x - 1, cl) :: rest /\
    plain_at pf (k + length x - 1, cl) /\
    Forall (plain_at pf) rest.
Proof.
  revert k. induction x as [|a x IH]; intros k Hne Hx; [congruence|].
  simpl in Hx. apply andb_true_iff in Hx as [Ha Hx].
  destruct x as [|b x].
  - exists a, []. simpl. replace (k + 1 - 1) with k by lia.
    split; [reflexivity|]. split; [now apply plain_spec | constructor].
  - destruct (IH (S k)) as (cl & rest & Hrev & Hcl & Hrest);
      [discriminate | exact Hx |].
    exists cl, (rest ++ [(k, a)]).
    change (Path.indexed k (String a (String b x)))
      with ((k, a) :: Path.indexed (S k) (String b x)).
    cbn [rev]. rewrite Hrev. cbn [length] in *.
    replace (k + S (S (length x)) - 1) with (S k + S (length x) - 1) by lia.
    split; [reflexivity|]. split; [exact Hcl|].
    apply Forall_app. split; [exact Hrest|].
    constructor; [|constructor]. now apply plain_spec.
Qed.

(** Once the end of the name is found, plain code units in front of a dot
    not yet found change nothing. *)
Lemma loop_plain (pf : Path.platform) (cs : list (nat * ascii))
    (st : Path.ext_state) (e : nat) :
  Forall (plain_at pf) cs ->
  Path.startDot st = None ->
  Path.end_ st = Some e ->
  Path.extname_loop pf cs st = st.
Proof.
  intros Hcs Hsd He. induction Hcs as [|[i c] cs [Hsep Hdot] _ IH];
    [reflexivity|].
  simpl in Hsep, Hdot. cbn [Path.extname_loop].
  rewrite Hsep, Hdot, He. cbn. rewrite Hsd. exact IH.
Qed.

(** No separator, no break. *)
Lemma loop_app (pf : Path.platform) (a b : list (nat * ascii))
    (st : Path.ext_state) :
  Forall (fun e => Path.isPathSeparator pf (snd e) = false) a ->
  Path.extname_loop pf (a ++ b) st
  = Path.extname_loop pf b (Path.extname_loop pf a st).
Proof.
  intros Ha. revert st. induction Ha as [|[i c] a Hc _ IH]; intros st;
    [reflexivity|].
  simpl in Hc. cbn [app Path.extname_loop]. rewrite Hc. apply IH.
Qed.

(** Once a dot, the end of the name and a code unit in front of the dot
    are found, what comes in front changes neither the dot nor the end. *)
Lemma loop_keeps (pf : Path.platform) (cs : list (nat * ascii))
    (st : Path.ext_state) (sd e : nat) :
  Path.startDot st = Some sd ->
  Path.end_ st = Some e ->
  Path.preDotState st <> None ->
  Path.startDot (Path.extname_loop pf cs st) = Some sd /\
  Path.end_ (Path.extname_loop pf cs st) = Some e /\
  Path.preDotState (Path.extname_loop pf cs st) <> None.
Proof.
  revert st. induction cs as [|[i c] cs IH]; intros st Hsd He Hp;
    [auto|].
  cbn [Path.extname_loop].
  destruct (Path.isPathSeparator pf c).
  - destruct (negb (Path.matchedSlash st)); [cbn; auto | now apply IH].
  - rewrite He. cbn. rewrite Hsd.
    destruct (Ascii.eqb c "."); apply IH; cbn; auto; discriminate.
Qed.

Lemma drop_app_le (n : nat) (a b : string) :
  n <= length a -> JS.drop n (a ++ b)%string = (JS.drop n a ++ b)%string.
Proof.
  revert a. induction n as [|n IH]; intros a Hle; [reflexivity|].
  destruct a as [|c a]; simpl in *; [lia|]. apply IH. lia.
Qed.

Lemma length_drop (n : nat) (a : string) :
  length (JS.drop n a) = length a - n.
Proof.
  revert a. induction n as [|n IH]; intros a; simpl; [lia|].
  destruct a as [|c a]; simpl; [reflexivity | apply IH].
Qed.

Lemma drop_length_app (a b : string) :
  JS.drop (length a) (a ++ b)%string = b.
Proof. induction a as [|c a IH]; simpl; [now destruct b | exact IH]. Qed.

Lemma take_length (s : string) : JS.take (length s) s = s.
Proof. induction s as [|c s IH]; simpl; [reflexivity | now rewrite IH]. Qed.

Lemma length_append (a b : string) :
  length (a ++ b)%string = length a + length b.
Proof. induction a as [|c a IH]; simpl; [reflexivity | now rewrite IH]. Qed.

Lemma slice_suffix (a b : string) :
  JS.slice (length a) (length a + length b) (a ++ b)%string = b.
Proof.
  unfold JS.slice. rewrite drop_length_app.
  replace (length a + length b - length a) with (length b) by lia.
  apply take_length.
Qed.

Lemma dot_is_no_separator (pf : Path.platform) :
  Path.isPathSeparator pf "." = false.
Proof. now destruct pf. Qed.

(** What [extname] returns once the loop has found a dot that is not the
    last code unit of the name and has a code unit in front of it. *)
Lemma extname_of_state (pf : Path.platform) (p : string)
    (st : Path.ext_state) (sd e : nat) :
  Path.extname_loop pf
    (rev (Path.indexed (Path.extname_start pf p)
            (JS.drop (Path.extname_start pf p) p)))
    {| Path.startDot := None; Path.startPart := Path.extname_start pf p;
       Path.end_ := None; Path.matchedSlash := true;
       Path.preDotState := None |} = st ->
  Path.startDot st = Some sd ->
  Path.end_ st = Some e ->
  Path.preDotState st <> None ->
  sd <> e - 1 ->
  Path.extname pf p = JS.slice sd e p.
Proof.
  intros Hst Hsd He Hp Hne. unfold Path.extname. cbv zeta.
  rewrite Hst, Hsd, He.
  destruct (Path.preDotState st) as [[|]|]; [|reflexivity|congruence].
  apply Nat.eqb_neq in Hne. now rewrite Hne.
Qed.

(** The extension of a regular name: what follows the last dot, when the
    dot has a code unit of the name in front of it. *)
Lemma extname_regular (pf : Path.platform) (pre : string) (c : ascii)
    (x : string) :
  x <> EmptyString ->
  all_chars (plain pf) x = true ->
  Path.isPathSeparator pf c = false ->
  Path.extname_start pf (pre ++ String c (String "." x))%string
    <= length pre ->
  Path.extname pf (pre ++ String c (String "." x))%string = String "." x.
Proof.
  intros Hne Hx Hc Hstart.
  set (p := (pre ++ String c (String "." x))%string) in *.
  set (start := Path.extname_start pf p) in *.
  assert (Hx1 : 1 <= length x) by (destruct x; simpl; [congruence | lia]).
  assert (Hlen : start + length (JS.drop start pre) = length pre)
    by (rewrite length_drop; lia).
  destruct (rev_indexed_head pf x (S (S (length pre))) Hne Hx)
    as (cl & rest & Hrev & [Hcl1 Hcl2] & Hrest).
  simpl in Hcl1, Hcl2.
  set (st3 := {| Path.startDot := Some (S (length pre));
                 Path.startPart := start;
                 Path.end_ := Some (S (S (length pre)) + length x - 1 + 1);
                 Path.matchedSlash := false;
                 Path.preDotState := Some (Ascii.eqb c ".") |}).
  destruct (loop_keeps pf (rev (Path.indexed start (JS.drop start pre))) st3
              (S (length pre)) (S (S (length pre)) + length x - 1 + 1))
    as (H1 & H2 & H3); [reflexivity | reflexivity | discriminate |].
  assert (Hloop :
    Path.extname_loop pf
      (rev (Path.indexed (Path.extname_start pf p)
              (JS.drop (Path.extname_start pf p) p)))
      {| Path.startDot := None; Path.startPart := Path.extname_start pf p;
         Path.end_ := None; Path.matchedSlash := true;
         Path.preDotState := None |}
    = Path.extname_loop pf (rev (Path.indexed start (JS.drop start pre)))
        st3).
  { fold start. unfold p. rewrite drop_app_le by exact Hstart.
    rewrite indexed_app, Hlen.
    change (Path.indexed (length pre) (String c (String "." x)))
      with ((length pre, c) :: (S (length pre), "."%char)
              :: Path.indexed (S (S (length pre))) x).
    rewrite rev_app_distr. cbn [rev]. rewrite <- !app_assoc. cbn [app].
    rewrite Hrev. cbn [app Path.extname_loop]. rewrite Hcl1, Hcl2. cbn.
    rewrite loop_app
      by (eapply Forall_impl; [|exact Hrest]; intros a0 [H0 _]; exact H0).
    rewrite (loop_plain pf rest _ (S (S (length pre)) + length x - 1 + 1))
      by (cbn; auto; f_equal; lia).
    cbn [Path.extname_loop]. rewrite dot_is_no_separator. cbn.
    rewrite Hc. cbn. unfold st3.
    replace (S (length pre + length x + 1))
      with (S (S (length pre)) + length x - 1 + 1) by lia.
    now destruct (Ascii.eqb c "."). }
  rewrite (extname_of_state pf p _ (S (length pre))
             (S (S (length pre)) + length x - 1 + 1) Hloop H1 H2 H3)
    by lia.
  replace p with ((pre ++ String c EmptyString) ++ String "." x)%string
    by (unfold p; now rewrite append_assoc).
  replace (S (S (length pre)) + length x - 1 + 1)
    with (length (pre ++ String c EmptyString)%string
          + length (String "." x))
    by (rewrite length_append; simpl; lia).
  replace (S (length pre))
    with (length (pre ++ String c EmptyString)%string)
    by (rewrite length_append; simpl; lia).
  apply slice_suffix.
Qed.

(** For a regular name, one whose extension is not empty, has a code unit
    of the name in front of its dot and occurs nowhere earlier in the
    path, [ext] gives the path with the new extension in the place of the
    old one. *)
Theorem ext_regular (pf : Path.platform) (pre : string) (c : ascii)
    (x extension : string) :
  x <> EmptyString ->
  all_chars (plain pf) x = true ->
  Path.isPathSeparator pf c = false ->
  Path.extname_start pf (pre ++ String c (String "." x))%string
    <= length pre ->
  JS.split_first (String "." x) (pre ++ String c (String "." x))%string
    = Some ((pre ++ String c EmptyString)%string, EmptyString) ->
  JS.has_char "$" extension = false ->
  ext pf (pre ++ String c (String "." x))%string extension
  = (pre ++ String c extension)%string.
Proof.
  intros Hne Hx Hc Hstart Hsplit Hext.
  rewrite (@ManifestFacts.ext_replaces_extension pf _
             (pre ++ String c EmptyString)%string extension).
  - now rewrite append_assoc.
  - now rewrite (extname_regular pf pre c x Hne Hx Hc Hstart).
  - exact Hext.
Qed.

(** The style sheet [assets/stylesheets/main.scss]. *)
Lemma ext_regular_witness :
  ext Path.Posix "assets/stylesheets/main.scss" ".css"
  = "assets/stylesheets/main.css"%string.
Proof.
  apply (ext_regular Path.Posix "assets/stylesheets/mai" "n" "scss" ".css").
  - discriminate.
  - reflexivity.
  - reflexivity.
  - simpl. lia.
  - reflexivity.
  - reflexivity.
Defined.

End ExtFacts.

(* ===================================================================== *)
(** * More on the manifest *)
(* ===================================================================== *)

Module MapFacts.

Import Rx Build RxFacts ManifestFacts.

Local Open Scope list_scope.
Local Open Scope nat_scope.

Lemma get_set_eq (k v : string) (m : JSMap.t) :
  JSMap.get k (JSMap.set k v m) = Some v.
Proof.
  induction m as [|[k0 v0] m IH]; simpl.
  - now rewrite String.eqb_refl.
  - destruct (String.eqb k0 k) eqn:Hk; simpl; rewrite Hk; auto.
Qed.

Lemma get_set_ne (k k' v : string) (m : JSMap.t) :
  k <> k' -> JSMap.get k' (JSMap.set k v m) = JSMap.get k' m.
Proof.
  intros Hne. induction m as [|[k0 v0] m IH]; simpl.
  - destruct (String.eqb k k') eqn:Hk; [|reflexivity].
    apply String.eqb_eq in Hk. contradiction.
  - destruct (String.eqb k0 k) eqn:Hk; simpl.
    + apply String.eqb_eq in Hk as ->.
      destruct (String.eqb k k') eqn:Hk'; [|reflexivity].
      apply String.eqb_eq in Hk'. contradiction.
    + now rewrite IH.
Qed.

Lemma get_In (k : string) (m : JSMap.t) :
  JSMap.get k m <> None <-> In k (map fst m).
Proof.
  induction m as [|[k0 v0] m IH]; simpl; [tauto|].
  destruct (String.eqb k0 k) eqn:Hk.
  - apply String.eqb_eq in Hk as ->. split; [now left | discriminate].
  - rewrite IH. apply String.eqb_neq in Hk. tauto.
Qed.

(** [set] leaves the keys in their order, and puts a new key last. *)
Lemma keys_set (k v : string) (m : JSMap.t) :
  map fst (JSMap.set k v m)
  = if JSMap.has k m then map fst m else map fst m ++ [k].
Proof.
  unfold JSMap.has. induction m as [|[k0 v0] m IH]; simpl; [reflexivity|].
  destruct (String.eqb k0 k) eqn:Hk; simpl.
  - apply String.eqb_eq in Hk. now subst.
  - rewrite IH. now destruct (JSMap.get k m).
Qed.

Lemma NoDup_keys_set (k v : string) (m : JSMap.t) :
  NoDup (map fst m) -> NoDup (map fst (JSMap.set k v m)).
Proof.
  intros H. rewrite keys_set. unfold JSMap.has.
  destruct (JSMap.get k m) eqn:Hg; [exact H|].
  apply NoDup_app; repeat constructor; auto.
  intros x Hx [<-|[]]. apply get_In in Hx. congruence.
Qed.

Section Fold.

Variable E : env.

Lemma set_all_snoc (m : JSMap.t) (mapping : list (string * string))
    (kv : string * string) :
  set_all E m (mapping ++ [kv])
  = JSMap.set (manifest_key (fst kv)) (manifest_value E (snd kv))
      (set_all E m mapping).
Proof. unfold set_all. now rewrite fold_left_app. Qed.

(** The pair that wrote the key [k] last, if any. *)
Definition last_writer (k : string) (mapping : list (string * string))
  : option (string * string) :=
  find (fun kv => String.eqb (manifest_key (fst kv)) k) (rev mapping).

Lemma get_set_all (k : string) (m : JSMap.t)
    (mapping : list (string * string)) :
  JSMap.get k (set_all E m mapping)
  = match last_writer k mapping with
    | Some kv => Some (manifest_value E (snd kv))
    | None => JSMap.get k m
    end.
Proof.
  unfold last_writer.
  induction mapping as [|kv mapping IH] using rev_ind; [reflexivity|].
  rewrite set_all_snoc, rev_app_distr. cbn [rev app find].
  destruct (String.eqb (manifest_key (fst kv)) k) eqn:Hk.
  - apply String.eqb_eq in Hk as <-. apply get_set_eq.
  - apply String.eqb_neq in Hk. rewrite get_set_ne by exact Hk. exact IH.
Qed.

Lemma NoDup_set_all (m : JSMap.t) (mapping : list (string * string)) :
  NoDup (map fst m) -> NoDup (map fst (set_all E m mapping)).
Proof.
  intros H. induction mapping as [|kv mapping IH] using rev_ind;
    [exact H|].
  rewrite set_all_snoc. now apply NoDup_keys_set.
Qed.

Lemma keys_set_all (m : JSMap.t) (mapping : list (string * string)) :
  exists more, map fst (set_all E m mapping) = map fst m ++ more.
Proof.
  induction mapping as [|kv mapping [more IH]] using rev_ind.
  - exists []. now rewrite app_nil_r.
  - rewrite set_all_snoc, keys_set, IH.
    destruct (JSMap.has _ _).
    + now exists more.
    + exists (more ++ [manifest_key (fst kv)]). now rewrite app_assoc.
Qed.

Lemma last_writer_In (k : string) (mapping : list (string * string))
    (kv : string * string) :
  In kv mapping -> manifest_key (fst kv) = k ->
  last_writer k mapping <> None.
Proof.
  intros Hin Hk. unfold last_writer.
  destruct (find _ (rev mapping)) eqn:Hf; [discriminate|].
  apply find_none with (x := kv) in Hf; [|now apply in_rev in Hin].
  simpl in Hf. subst k. now rewrite String.eqb_refl in Hf.
Qed.

End Fold.

(** All that the batches delivered up to the [i]-th value of [manifest$]
    hold, in the order of delivery. *)
Definition delivered (E : env) (t0 i : nat) : list (string * string) :=
  List.concat (map snd (firstn (S i) (emits (mappings E t0)))).

(** A lookup in the manifest gives what the last pair delivered for the
    key has set, and nothing for a key no pair was delivered for; a key a
    pair was delivered for is present. *)
Theorem manifest_last_writer_wins (E : env) (t0 i t : nat)
    (l : Store.loc) (h : Store.t) :
  nth_error (emits (manifest_ E t0)) i = Some (t, (l, h)) ->
  (forall k,
     JSMap.get k (Store.read h l)
     = match last_writer k (delivered E t0 i) with
       | Some kv => Some (manifest_value E (snd kv))
       | None => None
       end) /\
  (forall kv,
     In kv (delivered E t0 i) ->
     JSMap.has (manifest_key (fst kv)) (Store.read h l) = true).
Proof.
  intros H. destruct (@manifest_emission E t0 i t l h H) as (_ & Hr & _).
  assert (Hget : forall k,
            JSMap.get k (Store.read h l)
            = match last_writer k (delivered E t0 i) with
              | Some kv => Some (manifest_value E (snd kv))
              | None => None
              end).
  { intros k. rewrite Hr. unfold entries_after. now rewrite get_set_all. }
  split; [exact Hget|].
  intros kv Hin. unfold JSMap.has. rewrite Hget.
  destruct (last_writer _ _) eqn:Hw; [reflexivity|].
  now apply (last_writer_In _ _ kv Hin) in Hw.
Qed.

(** The second value of [manifest$] in the one-shot run. *)
Lemma manifest_last_writer_wins_witness :
  let E := Scenario.oneshot [] in
  let h := [[("main.css", "main.css"); ("bundle.js", "bundle.js")]]%string in
  nth_error (emits (manifest_ E 0)) 1 = Some (11, (0, h)) /\
  JSMap.has (manifest_key "bundle.js") (Store.read h 0) = true.
Proof.
  intros E h.
  assert (H : nth_error (emits (manifest_ E 0)) 1 = Some (11, (0, h)))
    by reflexivity.
  split; [exact H|].
  apply (proj2 (manifest_last_writer_wins E 0 1 11 0 h H)
           ("bundle.js", "dist/bundle.js")%string).
  right. left. reflexivity.
Defined.

(** No key occurs twice in the manifest. *)
Theorem manifest_keys_unique (E : env) (t0 i t : nat) (l : Store.loc)
    (h : Store.t) :
  nth_error (emits (manifest_ E t0)) i = Some (t, (l, h)) ->
  NoDup (map fst (Store.read h l)).
Proof.
  intros H. destruct (@manifest_emission E t0 i t l h H) as (_ & -> & _).
  apply NoDup_set_all. constructor.
Qed.

Lemma manifest_keys_unique_witness :
  let E := Scenario.oneshot [] in
  let h := [[("main.css", "main.css"); ("bundle.js", "bundle.js")]]%string in
  nth_error (emits (manifest_ E 0)) 1 = Some (11, (0, h)) /\
  NoDup (map fst (Store.read h 0)).
Proof.
  intros E h.
  assert (H : nth_error (emits (manifest_ E 0)) 1 = Some (11, (0, h)))
    by reflexivity.
  split; [exact H|].
  exact (manifest_keys_unique E 0 1 11 0 h H).
Defined.

(** The keys keep their place: the keys of the manifest at one value of
    [manifest$] come first, in the same order, at every later value. The
    template transform, which visits the entries in this order, visits the
    keys in the order in which they were first delivered. *)
Theorem manifest_keys_keep_order (E : env) (t0 i j t t' : nat)
    (l l' : Store.loc) (h h' : Store.t) :
  j <= i ->
  nth_error (emits (manifest_ E t0)) j = Some (t', (l', h')) ->
  nth_error (emits (manifest_ E t0)) i = Some (t, (l, h)) ->
  exists more,
    map fst (Store.read h l) = map fst (Store.read h' l') ++ more.
Proof.
  intros Hle Hj Hi.
  destruct (@manifest_emission E t0 i t l h Hi) as (_ & -> & _).
  destruct (@manifest_emission E t0 j t' l' h' Hj) as (_ & -> & _).
  destruct (@firstn_le_app _ (S j) (S i) (emits (mappings E t0)))
    as [rest Hrest]; [lia|].
  rewrite Hrest, map_app, entries_after_app. apply keys_set_all.
Qed.

Lemma manifest_keys_keep_order_witness :
  let E := Scenario.oneshot [] in
  let h' := [[("main.css", "main.css")]]%string in
  let h := [[("main.css", "main.css"); ("bundle.js", "bundle.js")]]%string in
  nth_error (emits (manifest_ E 0)) 0 = Some (3, (0, h')) /\
  nth_error (emits (manifest_ E 0)) 1 = Some (11, (0, h)) /\
  exists more,
    map fst (Store.read h 0) = map fst (Store.read h' 0) ++ more.
Proof.
  intros E h' h.
  assert (H0 : nth_error (emits (manifest_ E 0)) 0 = Some (3, (0, h')))
    by reflexivity.
  assert (H1 : nth_error (emits (manifest_ E 0)) 1 = Some (11, (0, h)))
    by reflexivity.
  split; [exact H0|]. split; [exact H1|].
  apply (manifest_keys_keep_order E 0 1 0 11 3 0 0 h h'); [lia | exact H0
    | exact H1].
Defined.

End MapFacts.

(* ===================================================================== *)
(** * More on the template transform *)
(* ===================================================================== *)

Module RewriteFacts.

Import Build.

Local Open Scope string_scope.

Definition no_quote (s : string) : Prop :=
  JS.has_char JS.SQ s = false /\ JS.has_char JS.DQ s = false.

Lemma no_quote_cons (c : ascii) (s : string) :
  no_quote (String c s) -> JS.is_quote c = false /\ no_quote s.
Proof.
  unfold no_quote, JS.is_quote. simpl. intros [H1 H2].
  apply orb_false_iff in H1 as [H1 H1'].
  apply orb_false_iff in H2 as [H2 H2'].
  now rewrite H1, H2.
Qed.

(** Text without quotes in front of [s] is passed over. *)
Lemma replace_quoted_from_plain (p : list JS.atom) (tpl : string)
    (pre before s : string) :
  no_quote pre ->
  JS.replace_quoted_from p tpl 0 before (pre ++ s)
  = pre ++ JS.replace_quoted_from p tpl 0 (before ++ pre) s.
Proof.
  revert before. induction pre as [|c pre IH]; intros before Hpre.
  - now rewrite append_empty_r.
  - apply no_quote_cons in Hpre as [Hc Hpre].
    cbn [append JS.replace_quoted_from JS.match_quoted]. rewrite Hc.
    rewrite IH by exact Hpre. now rewrite append_assoc.
Qed.

Lemma replace_quoted_from_empty (p : list JS.atom) (tpl : string)
    (k : nat) (before : string) :
  JS.replace_quoted_from p tpl k before EmptyString = EmptyString.
Proof. reflexivity. Qed.

Lemma replace_quoted_from_no_quote (p : list JS.atom) (tpl : string)
    (before s : string) :
  no_quote s -> JS.replace_quoted_from p tpl 0 before s = s.
Proof.
  intros H. rewrite <- (append_empty_r s) at 1.
  rewrite replace_quoted_from_plain by exact H.
  now rewrite replace_quoted_from_empty, append_empty_r.
Qed.

(** The code units of a match are passed over. *)
Lemma replace_quoted_from_skip (p : list JS.atom) (tpl : string)
    (a before post : string) :
  JS.replace_quoted_from p tpl (length a) before (a ++ post)
  = JS.replace_quoted_from p tpl 0 (before ++ a) post.
Proof.
  revert before. induction a as [|c a IH]; intros before.
  - now rewrite append_empty_r.
  - cbn [append length JS.replace_quoted_from]. rewrite IH.
    now rewrite append_assoc.
Qed.

(** The pattern of a key matches the key. *)
Lemma match_atoms_key (key : string) (p : list JS.atom) (rest : string) :
  JS.key_atoms key = Some p ->
  JS.match_atoms p (key ++ rest) = Some (key, rest).
Proof.
  revert p. induction key as [|c key IH]; intros p Hp; simpl in Hp.
  - injection Hp as <-. reflexivity.
  - destruct (JS.key_atoms key) as [p'|]; [|discriminate].
    specialize (IH p' eq_refl).
    destruct (Ascii.eqb c ".") eqn:Hdot.
    + injection Hp as <-. apply Ascii.eqb_eq in Hdot as ->.
      cbn [append JS.match_atoms JS.atom_matches]. cbn. now rewrite IH.
    + destruct (JS.is_syntax_char c); [discriminate|]. injection Hp as <-.
      cbn [append JS.match_atoms JS.atom_matches].
      now rewrite Ascii.eqb_refl, IH.
Qed.

Lemma match_quoted_key (key : string) (p : list JS.atom) (q : ascii)
    (post : string) :
  JS.key_atoms key = Some p ->
  JS.is_quote q = true ->
  JS.match_quoted p (JS.quoted q key ++ post)
  = Some (q, JS.quoted q key, post).
Proof.
  intros Hp Hq. unfold JS.quoted. cbn [append JS.match_quoted].
  rewrite Hq, append_assoc. cbn [append].
  rewrite (match_atoms_key key p _ Hp). now rewrite Ascii.eqb_refl.
Qed.

(** The reference to the quote in front of any text. *)
Lemma get_substitution_quote (m b a c1 v : string) :
  JS.get_substitution m b a [c1] ("$1" ++ v)
  = c1 ++ JS.get_substitution m b a [c1] v.
Proof.
  destruct v as [|e v]; [reflexivity|].
  cbn [append JS.get_substitution].
  destruct (JS.is_digit e); reflexivity.
Qed.

Lemma get_substitution_plain_app (m b a : string) (caps : list string)
    (v t : string) :
  JS.has_char "$" v = false ->
  JS.get_substitution m b a caps (v ++ t)
  = v ++ JS.get_substitution m b a caps t.
Proof.
  induction v as [|c v IH]; intros H; [reflexivity|].
  simpl in H. apply orb_false_iff in H as [Hc Hv].
  cbn [append JS.get_substitution]. rewrite Hc. now rewrite IH.
Qed.

Lemma length_quoted (q : ascii) (s : string) :
  length (JS.quoted q s) - 1 = length (s ++ String q EmptyString).
Proof. unfold JS.quoted. simpl. lia. Qed.

Lemma replace_quoted_between (key value : string) (q : ascii)
    (pre post : string) :
  JS.key_atoms key <> None ->
  JS.is_quote q = true ->
  JS.has_char "$" value = false ->
  no_quote pre ->
  no_quote post ->
  JS.replace_quoted (pre ++ JS.quoted q key ++ post) key value
  = Some (pre ++ JS.quoted q value ++ post).
Proof.
  intros Hkey Hq Hvalue Hpre Hpost. unfold JS.replace_quoted.
  destruct (JS.key_atoms key) as [p|] eqn:Hp; [|congruence].
  f_equal. rewrite replace_quoted_from_plain by exact Hpre. f_equal.
  remember ("$1" ++ value ++ "$1") as tpl eqn:Htpl.
  assert (Hm : JS.match_quoted p (JS.quoted q key ++ post)
               = Some (q, JS.quoted q key, post))
    by now apply match_quoted_key.
  unfold JS.quoted at 1. cbn [append JS.replace_quoted_from].
  unfold JS.quoted at 1 in Hm. cbn [append] in Hm. rewrite Hm.
  rewrite length_quoted, append_assoc.
  replace (key ++ String q EmptyString ++ post)
    with ((key ++ String q EmptyString) ++ post)
    by now rewrite append_assoc.
  rewrite replace_quoted_from_skip.
  rewrite replace_quoted_from_no_quote by exact Hpost.
  f_equal. subst tpl.
  rewrite get_substitution_quote, get_substitution_plain_app by exact Hvalue.
  change "$1" with ("$1" ++ EmptyString).
  rewrite get_substitution_quote. cbn [JS.get_substitution].
  rewrite append_empty_r. reflexivity.
Qed.

(** A manifest key between two quotes of one kind, in text that has no
    other quote, is replaced by the value between the same quotes, and the
    text around it stays as it is. The key is any text the pattern of
    which is modelled (its dots included), the value any text without
    [$]. *)
Theorem replace_quoted_key (key value : string) (q : ascii)
    (pre post : string) :
  JS.key_atoms key <> None ->
  JS.is_quote q = true ->
  JS.has_char "$" value = false ->
  no_quote pre ->
  no_quote post ->
  JS.replace_quoted (pre ++ JS.quoted q key ++ post) key value
  = Some (pre ++ JS.quoted q value ++ post).
Proof. exact (replace_quoted_between key value q pre post). Qed.

(** The quoted key [foo.scss] in a link. *)
Lemma replace_quoted_key_witness :
  JS.replace_quoted
    ("<link href=" ++ JS.quoted JS.DQ "foo.scss" ++ ">") "foo.scss" "foo.css"
  = Some ("<link href=" ++ JS.quoted JS.DQ "foo.css" ++ ">").
Proof.
  apply (replace_quoted_key "foo.scss" "foo.css" JS.DQ "<link href=" ">").
  - discriminate.
  - reflexivity.
  - reflexivity.
  - split; reflexivity.
  - split; reflexivity.
Defined.

(** A template without a quote is not altered by the manifest, whatever
    entries it holds (with keys the pattern of which is modelled). *)
Theorem apply_manifest_without_quotes (E : env) (entries : JSMap.t)
    (data : string) :
  Forall (fun kv => JS.key_atoms (fst kv) <> None) entries ->
  no_quote data ->
  apply_manifest E entries data = Some data.
Proof.
  intros Hkeys Hdata. unfold apply_manifest.
  induction Hkeys as [|[k v] entries Hk _ IH]; [reflexivity|].
  cbn [fold_left fst snd]. unfold replace_key, JS.replace_quoted.
  simpl in Hk. destruct (JS.key_atoms k) as [p|]; [|congruence].
  rewrite replace_quoted_from_no_quote by exact Hdata. exact IH.
Qed.

Lemma apply_manifest_without_quotes_witness :
  apply_manifest (Scenario.oneshot ["--optimize"])
    [("main.css", "main.1f3a.min.css")] "<p>main.css</p>"
  = Some "<p>main.css</p>".
Proof.
  apply (apply_manifest_without_quotes (Scenario.oneshot ["--optimize"])
           [("main.css", "main.1f3a.min.css")] "<p>main.css</p>").
  - repeat constructor. discriminate.
  - split; reflexivity.
Defined.

(** Without [--optimize] the transform does not look at the manifest: it
    returns the same for every store and map. *)
Theorem template_transform_ignores_manifest (E : env) (h h' : Store.t)
    (manifest manifest' : Store.loc) (data : string) :
  argv_includes E "--optimize" = false ->
  template_transform E h manifest data
  = template_transform E h' manifest' data.
Proof. intros H. unfold template_transform. now rewrite H. Qed.

Lemma template_transform_ignores_manifest_witness :
  let E := Scenario.oneshot [] in
  let data := JS.quoted JS.DQ "foo.scss" in
  argv_includes E "--optimize" = false /\
  template_transform E [[("foo.scss", "foo.css")]] 0 data
  = template_transform E [[]] 0 data.
Proof.
  intros E data.
  assert (H : argv_includes E "--optimize" = false) by reflexivity.
  split; [exact H|].
  exact (template_transform_ignores_manifest E _ _ 0 0 data H).
Defined.

(** ** Line feeds and blank lines *)

Lemma normalize_linefeeds_cons (c : ascii) (s : string) :
  Ascii.eqb c JS.CR = false ->
  JS.normalize_linefeeds (String c s)
  = String c (JS.normalize_linefeeds s).
Proof. intros H. destruct s; simpl; [reflexivity | now rewrite H]. Qed.

(** Text without a carriage return is left as it is, and after such text a
    carriage return with its line feed becomes the line feed alone. *)
Theorem normalize_linefeeds_spec (a b : string) :
  JS.has_char JS.CR a = false ->
  JS.normalize_linefeeds a = a /\
  JS.normalize_linefeeds (a ++ String JS.CR (String JS.LF b))
  = a ++ String JS.LF (JS.normalize_linefeeds b).
Proof.
  induction a as [|c a IH]; intros H.
  - split; reflexivity.
  - simpl in H. apply orb_false_iff in H as [Hc Ha].
    destruct (IH Ha) as [IH1 IH2]. cbn [append].
    rewrite !normalize_linefeeds_cons by exact Hc.
    now rewrite IH1, IH2.
Qed.

Lemma normalize_linefeeds_spec_witness :
  JS.has_char JS.CR "<p>" = false /\
  JS.normalize_linefeeds ("<p>" ++ String JS.CR (String JS.LF "</p>"))
  = "<p>" ++ String JS.LF "</p>".
Proof.
  split; [reflexivity|].
  exact (proj2 (normalize_linefeeds_spec "<p>" "</p>" eq_refl)).
Defined.

Lemma blank_match_none (n : nat) (s : string) :
  JS.has_char JS.LF s = false -> JS.has_char JS.CR s = false ->
  JS.blank_match n s = None.
Proof.
  revert n. induction s as [|c s IH]; intros n H1 H2; [reflexivity|].
  simpl in H1, H2.
  apply orb_false_iff in H1 as [Hc1 Hs1].
  apply orb_false_iff in H2 as [Hc2 Hs2].
  cbn [JS.blank_match]. rewrite IH by assumption.
  unfold JS.is_line_terminator. rewrite Hc1, Hc2.
  now destruct (JS.is_space c).
Qed.

(** Text of one line, without a line terminator, keeps its white space. *)
Theorem strip_blank_lines_one_line (s : string) :
  JS.has_char JS.LF s = false -> JS.has_char JS.CR s = false ->
  JS.strip_blank_lines s = s.
Proof.
  unfold JS.strip_blank_lines. generalize true.
  induction s as [|c s IH]; intros bol H1 H2; [reflexivity|].
  cbn [JS.strip_blank_lines_from].
  rewrite (blank_match_none 0 (String c s) H1 H2).
  simpl in H1, H2.
  apply orb_false_iff in H1 as [_ Hs1].
  apply orb_false_iff in H2 as [_ Hs2].
  destruct bol; now rewrite IH.
Qed.

Lemma strip_blank_lines_one_line_witness :
  JS.strip_blank_lines "   <p> x </p>  " = "   <p> x </p>  ".
Proof.
  apply (strip_blank_lines_one_line "   <p> x </p>  "); reflexivity.
Defined.

(** ** The order of the replacements *)

Lemma replace_key_between (E : env) (key value : string) (q : ascii)
    (pre post : string) :
  JS.key_atoms key <> None ->
  JS.is_quote q = true ->
  JS.has_char "$" value = false ->
  no_quote pre ->
  no_quote post ->
  replace_key E (pre ++ JS.quoted q key ++ post) key value
  = Some (pre ++ JS.quoted q value ++ post).
Proof.
  intros Hkey Hq Hvalue Hpre Hpost. unfold replace_key.
  now rewrite (replace_quoted_between key value q pre post).
Qed.

(** The second entry of a manifest is applied to the text the first one
    has left. For the entries of [k1] with the value [k2] and of [k2] with
    the value [v], in this order, where both keys are of literal
    characters and dots and [k2] and [v] hold no [$]: the key [k1] between
    two quotes of one kind, in text that has no other quote, ends as [v]
    between the same quotes, and the text around it stays as it is. *)
Theorem apply_manifest_chains (E : env) (k1 k2 v : string) (q : ascii)
    (pre post : string) :
  JS.key_atoms k1 <> None ->
  JS.key_atoms k2 <> None ->
  JS.is_quote q = true ->
  JS.has_char "$" k2 = false ->
  JS.has_char "$" v = false ->
  no_quote pre ->
  no_quote post ->
  apply_manifest E [(k1, k2); (k2, v)] (pre ++ JS.quoted q k1 ++ post)
  = Some (pre ++ JS.quoted q v ++ post).
Proof.
  intros H1 H2 Hq Hk2 Hv Hpre Hpost.
  rewrite TransformFacts.apply_manifest_cons.
  rewrite (replace_key_between E k1 k2 q pre post H1 Hq Hk2 Hpre Hpost).
  rewrite TransformFacts.apply_manifest_cons.
  rewrite (replace_key_between E k2 v q pre post H2 Hq Hv Hpre Hpost).
  reflexivity.
Qed.

Lemma apply_manifest_chains_witness :
  apply_manifest (Scenario.oneshot ["--optimize"])
    [("a.css", "b.css"); ("b.css", "c.css")]
    ("<link href=" ++ JS.quoted JS.SQ "a.css" ++ ">")
  = Some ("<link href=" ++ JS.quoted JS.SQ "c.css" ++ ">").
Proof.
  apply (apply_manifest_chains (Scenario.oneshot ["--optimize"])
           "a.css" "b.css" "c.css" JS.SQ "<link href=" ">");
    try discriminate; try reflexivity; split; reflexivity.
Defined.

(** ** The normalization of the entries *)

(** An entry with forward slashes only: the key is stored as it is, and
    the value without the output root in front of it. *)
Theorem normalize_posix_entry (E : env) (key rest : string) :
  JS.has_char "\" key = false ->
  JS.has_char "\" (base E ++ "/" ++ rest) = false ->
  manifest_key key = key /\
  manifest_value E (base E ++ "/" ++ rest) = rest.
Proof.
  intros Hk Hv. split.
  - now apply TransformFacts.manifest_key_posix.
  - now apply TransformFacts.manifest_value_strips_root.
Qed.

Lemma normalize_posix_entry_witness :
  let E := Scenario.oneshot [] in
  manifest_key "assets/stylesheets/main.css" = "assets/stylesheets/main.css"
  /\ manifest_value E (base E ++ "/" ++ "assets/stylesheets/main.css")
     = "assets/stylesheets/main.css".
Proof.
  intros E.
  apply (normalize_posix_entry E "assets/stylesheets/main.css"
           "assets/stylesheets/main.css"); reflexivity.
Defined.

(** Of the backslashes of a key the first becomes a slash; what follows
    it is stored as it is, further backslashes included. *)
Theorem normalize_first_backslash (a b : string) :
  JS.has_char "\" a = false ->
  manifest_key (a ++ String "\" b) = a ++ String "/" b.
Proof. exact (TransformFacts.manifest_key_first_backslash a b). Qed.

Lemma normalize_first_backslash_witness :
  manifest_key ("assets" ++ String "\" "stylesheets\main.css")
  = "assets" ++ String "/" "stylesheets\main.css".
Proof.
  apply (normalize_first_backslash "assets" "stylesheets\main.css").
  reflexivity.
Defined.

End RewriteFacts.

(* ===================================================================== *)
(** * The removal of blank lines *)
(* ===================================================================== *)

Module LineFacts.

Import ExtFacts.

Local Open Scope string_scope.

Lemma terminator_is_space (c : ascii) :
  JS.is_line_terminator c = true -> JS.is_space c = true.
Proof.
  unfold JS.is_line_terminator. intros H.
  apply orb_true_iff in H as [H|H]; apply Ascii.eqb_eq in H; now subst.
Qed.

(** The match of a blank line goes as far as the blank lines after it. *)
Lemma blank_match_blank (n : nat) (ws : string) (nl : ascii)
    (rest : string) :
  all_chars JS.is_space ws = true ->
  JS.is_line_terminator nl = true ->
  JS.blank_match n (ws ++ String nl rest)
  = match JS.blank_match (n + length ws + 1) rest with
    | Some k => Some k
    | None => Some (n + length ws + 1)
    end.
Proof.
  intros Hws Hnl. revert n. induction ws as [|c ws IH]; intros n.
  - cbn [append length JS.blank_match].
    rewrite (terminator_is_space nl Hnl), Hnl.
    replace (n + 0 + 1) with (S n) by lia. reflexivity.
  - simpl in Hws. apply andb_true_iff in Hws as [Hc Hws].
    cbn [append length JS.blank_match]. rewrite Hc, (IH Hws).
    replace (S n + length ws + 1) with (n + S (length ws) + 1) by lia.
    now destruct (JS.blank_match _ rest).
Qed.

Lemma blank_match_shift (n : nat) (s : string) :
  JS.blank_match n s
  = match JS.blank_match 0 s with
    | Some k => Some (n + k)
    | None => None
    end.
Proof.
  revert n. induction s as [|c s IH]; intros n; [reflexivity|].
  cbn [JS.blank_match]. destruct (JS.is_space c); [|reflexivity].
  rewrite (IH (S n)), (IH 1).
  destruct (JS.blank_match 0 s) as [k|].
  - f_equal. lia.
  - destruct (JS.is_line_terminator c); [|reflexivity]. f_equal. lia.
Qed.

Lemma blank_match_positive (s : string) (k : nat) :
  JS.blank_match 0 s = Some k -> exists k', k = S k'.
Proof.
  destruct s as [|c s]; [discriminate|].
  cbn [JS.blank_match]. destruct (JS.is_space c); [|discriminate].
  rewrite blank_match_shift.
  destruct (JS.blank_match 0 s) as [k0|].
  - intros [= <-]. now exists k0.
  - destruct (JS.is_line_terminator c); [|discriminate].
    intros [= <-]. now exists 0.
Qed.

(** Passing over the code units of a match. *)
Lemma strip_skip (b : bool) (a : string) (c : ascii) (k : nat)
    (r : string) :
  JS.strip_blank_lines_from b (length a + S k) (a ++ String c r)
  = JS.strip_blank_lines_from (JS.is_line_terminator c) k r.
Proof.
  revert b. induction a as [|x a IH]; intros b; [reflexivity|].
  cbn [append length Nat.add JS.strip_blank_lines_from]. apply IH.
Qed.

(** At the start of a line, a match is passed over from its first code
    unit on. *)
Lemma strip_start (s : string) (k : nat) :
  JS.blank_match 0 s = Some (S k) ->
  JS.strip_blank_lines_from true 0 s
  = JS.strip_blank_lines_from true (S k) s.
Proof.
  destruct s as [|c s]; [discriminate|]. intros H.
  cbn [JS.strip_blank_lines_from]. now rewrite H.
Qed.

Lemma strip_line_false (a : string) (nl : ascii) (r : string) :
  JS.has_char JS.LF a = false -> JS.has_char JS.CR a = false ->
  JS.is_line_terminator nl = true ->
  JS.strip_blank_lines_from false 0 (a ++ String nl r)
  = a ++ String nl (JS.strip_blank_lines_from true 0 r).
Proof.
  intros H1 H2 Hnl. induction a as [|c a IH].
  - cbn [append JS.strip_blank_lines_from]. now rewrite Hnl.
  - simpl in H1, H2.
    apply orb_false_iff in H1 as [Hc1 Ha1].
    apply orb_false_iff in H2 as [Hc2 Ha2].
    cbn [append JS.strip_blank_lines_from].
    unfold JS.is_line_terminator at 1. rewrite Hc1, Hc2. cbn [orb].
    now rewrite (IH Ha1 Ha2).
Qed.

Lemma blank_match_text (n : nat) (a s : string) :
  JS.has_char JS.LF a = false -> JS.has_char JS.CR a = false ->
  all_chars JS.is_space a = false ->
  JS.blank_match n (a ++ s) = None.
Proof.
  revert n. induction a as [|c a IH]; intros n H1 H2 Ha; [discriminate|].
  simpl in H1, H2, Ha.
  apply orb_false_iff in H1 as [Hc1 Ha1].
  apply orb_false_iff in H2 as [Hc2 Ha2].
  cbn [append JS.blank_match].
  destruct (JS.is_space c); [|reflexivity]. simpl in Ha.
  rewrite (IH (S n) Ha1 Ha2 Ha).
  unfold JS.is_line_terminator. now rewrite Hc1, Hc2.
Qed.

(** The removal works line by line: a line of white space only goes, with
    its terminator, and a line with other text stays as it is, its white
    space included. *)
Theorem strip_blank_lines_by_line (line : string) (nl : ascii)
    (rest : string) :
  JS.is_line_terminator nl = true ->
  (all_chars JS.is_space line = true ->
   JS.strip_blank_lines (line ++ String nl rest)
   = JS.strip_blank_lines rest) /\
  (JS.has_char JS.LF line = false -> JS.has_char JS.CR line = false ->
   all_chars JS.is_space line = false ->
   JS.strip_blank_lines (line ++ String nl rest)
   = line ++ String nl (JS.strip_blank_lines rest)).
Proof.
  intros Hnl. unfold JS.strip_blank_lines. split.
  - intros Hws.
    pose proof (blank_match_blank 0 line nl rest Hws Hnl) as Hm.
    cbn [Nat.add] in Hm.
    rewrite (blank_match_shift (length line + 1) rest) in Hm.
    destruct (JS.blank_match 0 rest) as [k|] eqn:Hrest.
    + destruct (blank_match_positive rest k Hrest) as [k' ->].
      destruct rest as [|c rest]; [discriminate|].
      replace (length line + 1 + S k') with (S (length line + S k')) in Hm
        by lia.
      rewrite (strip_start _ _ Hm).
      replace (S (length line + S k'))
        with (length (line ++ String nl EmptyString) + S k')
        by (rewrite length_append; simpl; lia).
      replace (line ++ String nl (String c rest))
        with ((line ++ String nl EmptyString) ++ String c rest)
        by now rewrite append_assoc.
      rewrite strip_skip. rewrite (strip_start _ _ Hrest).
      reflexivity.
    + replace (length line + 1) with (S (length line)) in Hm by lia.
      rewrite (strip_start _ _ Hm).
      replace (S (length line)) with (length line + 1) by lia.
      rewrite strip_skip. now rewrite Hnl.
  - intros H1 H2 Ha.
    destruct line as [|c line]; [discriminate|].
    cbn [append JS.strip_blank_lines_from].
    change (String c (line ++ String nl rest))
      with (String c line ++ String nl rest).
    rewrite (blank_match_text 0 _ _ H1 H2 Ha).
    simpl in H1, H2.
    apply orb_false_iff in H1 as [Hc1 Ha1].
    apply orb_false_iff in H2 as [Hc2 Ha2].
    unfold JS.is_line_terminator at 1. rewrite Hc1, Hc2. cbn [orb].
    now rewrite (strip_line_false line nl rest Ha1 Ha2 Hnl).
Qed.

Lemma strip_blank_lines_by_line_witness :
  JS.is_line_terminator JS.LF = true /\
  JS.strip_blank_lines ("   " ++ String JS.LF " <p>x</p> ")
  = JS.strip_blank_lines " <p>x</p> " /\
  JS.strip_blank_lines (" <p>x</p> " ++ String JS.LF "   ")
  = " <p>x</p> " ++ String JS.LF (JS.strip_blank_lines "   ").
Proof.
  split; [reflexivity|]. split.
  - apply (proj1 (strip_blank_lines_by_line "   " JS.LF " <p>x</p> "
                    eq_refl)). reflexivity.
  - apply (proj2 (strip_blank_lines_by_line " <p>x</p> " JS.LF "   "
                    eq_refl)); reflexivity.
Defined.

End LineFacts.

(* ===================================================================== *)
(** * More on the tasks *)
(* ===================================================================== *)

Module ScheduleFacts.

Import Rx Build RxFacts ManifestFacts PhaseFacts.

Local Open Scope list_scope.
Local Open Scope nat_scope.

(** ** The copy passes *)

Lemma done_concat_cons {L A} (o : obs L A) (os : list (obs L A))
    (t : nat) :
  done (concat (o :: os) t)
  = match done (o t) with
    | Some d => done (concat os d)
    | None => None
    end.
Proof. simpl. destruct (done (o t)) eqn:H; [reflexivity | exact H]. Qed.

Lemma In_concat_app_log {L A} (a b : list (obs L A)) (t : nat)
    (x : nat * L) :
  In x (log (concat (a ++ b) t)) <->
  In x (log (concat a t)) \/
  exists d, done (concat a t) = Some d /\ In x (log (concat b d)).
Proof.
  revert t. induction a as [|o a IH]; intros t.
  - simpl. split.
    + intros H. right. eauto.
    + intros [[]|(d & [= <-] & H)]. exact H.
  - change ((o :: a) ++ b) with (o :: (a ++ b)).
    rewrite !(@In_concat_log L A), done_concat_cons. split.
    + intros [H|(d0 & Hd0 & H)]; [now left; left|].
      apply IH in H as [H|(d & Hd & H)].
      * left. right. eauto.
      * right. exists d. rewrite Hd0. auto.
    + intros [[H|(d0 & Hd0 & H)]|(d & Hd & H)].
      * now left.
      * right. exists d0. split; [exact Hd0|]. apply IH. now left.
      * destruct (done (o t)) as [d0|]; [|discriminate].
        right. exists d0. split; [reflexivity|]. apply IH. right. eauto.
Qed.

Section Assets.

Variable E : env.

Lemma asset_log_labels
    (l : list (string * string * string * option (string -> option string)))
    (t0 t : nat) (e : event) :
  In (t, e) (log (concat (map (asset_pass E) l) t0)) ->
  exists p, In p l /\
    (e = Started (asset_call p) \/ e = Finished (asset_call p)).
Proof.
  revert t0. induction l as [|p l IH]; intros t0; [intros []|].
  cbn [map]. intros H. apply (@In_concat_log event string) in H.
  destruct H as [H|(d & _ & H)].
  - exists p. split; [now left|].
    destruct p as [[[pattern from] to] transform].
    unfold asset_pass, traced, instrumented in H. cbn [log] in H.
    destruct H as [[= _ <-]|H]; [now left|].
    destruct (m_done _) in H; [|destruct H].
    destruct H as [[= _ <-]|[]]. now right.
  - destruct (IH d H) as (p' & Hp' & He). exists p'. split; [now right|].
    exact He.
Qed.

(** The passes differ in their pattern or their source root. *)
Lemma asset_passes_distinct :
  NoDup (map (fun p => (fst (fst (fst p)), snd (fst (fst p))))
           (asset_passes E)).
Proof.
  unfold asset_passes. cbn [map fst snd].
  repeat (constructor; [cbn [In]; intuition discriminate|]).
  constructor.
Qed.

Lemma asset_call_name
    (p q : string * string * string * option (string -> option string)) :
  asset_call p = asset_call q ->
  (fst (fst (fst p)), snd (fst (fst p)))
  = (fst (fst (fst q)), snd (fst (fst q))).
Proof.
  destruct p as [[[pp pf] pt] ptr], q as [[[qp qf] qt] qtr]. simpl.
  now intros [= -> -> _].
Qed.

Lemma NoDup_app_disjoint {X} (a b : list X) (x : X) :
  NoDup (a ++ b) -> In x a -> In x b -> False.
Proof.
  induction a as [|y a IH]; intros Hnd Ha Hb; [destruct Ha|].
  cbn [app] in Hnd. inversion Hnd as [|? ? Hy Hnd']; subst.
  destruct Ha as [->|Ha].
  - apply Hy, in_or_app. now right.
  - now apply IH.
Qed.

Hypothesis HE : env_causal E.

Lemma causal_asset_passes
    (l : list (string * string * string * option (string -> option string))) :
  Forall Causal (map (asset_pass E) l).
Proof.
  apply Forall_map, Forall_forall.
  intros [[[pattern from] to] transform] _.
  apply causal_instrumented, (copyAll_causal HE).
Qed.

(** The copy passes run one after the other, in the order of the script:
    when a pass starts, every pass in front of it has completed. *)
Theorem assets_run_in_order
    (pre mid post :
       list (string * string * string * option (string -> option string)))
    (p q : string * string * string * option (string -> option string))
    (t0 ts : nat) :
  asset_passes E = pre ++ p :: mid ++ q :: post ->
  In (ts, Started (asset_call q)) (log (assets_ E t0)) ->
  exists d,
    d <= ts /\ In (d, Finished (asset_call p)) (log (assets_ E t0)).
Proof.
  intros Hsplit Hin. unfold assets_ in *.
  assert (Hsplit' : asset_passes E = (pre ++ [p]) ++ (mid ++ q :: post))
    by (rewrite Hsplit, <- app_assoc; reflexivity).
  rewrite Hsplit', map_app in *.
  apply In_concat_app_log in Hin as [Hin|(d0 & Hd0 & Hin)].
  - exfalso. apply asset_log_labels in Hin as (p' & Hp' & [He|He]);
      [|discriminate].
    injection He as He. apply asset_call_name in He.
    pose proof asset_passes_distinct as Hnd.
    rewrite Hsplit', map_app in Hnd.
    apply (NoDup_app_disjoint _ _
             (fst (fst (fst q)), snd (fst (fst q))) Hnd).
    + rewrite He. now apply in_map with
        (f := fun p => (fst (fst (fst p)), snd (fst (fst p)))).
    + apply in_map with
        (f := fun p => (fst (fst (fst p)), snd (fst (fst p)))).
      apply in_or_app. right. now left.
  - assert (Hle : d0 <= ts).
    { destruct (causal_concat (causal_asset_passes (mid ++ q :: post)) d0)
        as (_ & _ & Hl).
      rewrite Forall_forall in Hl. exact (Hl _ Hin). }
    assert (Hp : In (asset_pass E p) (map (asset_pass E) (pre ++ [p])))
      by (apply in_map, in_or_app; right; now left).
    destruct (@concat_all_done _ _ _ t0 d0
                (causal_asset_passes (pre ++ [p])) Hd0 _ Hp)
      as (tp & d' & Hdone & Hle' & Hlog).
    exists d'. split; [lia|].
    apply In_concat_app_log. left. apply Hlog.
    destruct p as [[[pattern from] to] transform].
    unfold asset_pass, traced, instrumented in Hdone |- *.
    cbn [done log] in Hdone |- *. rewrite Hdone. right. now left.
Qed.

End Assets.

(** The one-shot run: the pass of the license of the first icon set
    starts at tick 3, when the pass of its icons completes. *)
Lemma assets_run_in_order_witness :
  let E := Scenario.oneshot [] in
  In (3, Started (AssetCopy "../LICENSE" "node_modules/@mdi/svg/svg"
                    "dist/.icons/material")) (log (assets_ E 0)) /\
  exists d,
    d <= 3 /\
    In (d, Finished (AssetCopy "*.svg" "node_modules/@mdi/svg/svg"
                       "dist/.icons/material")) (log (assets_ E 0)).
Proof.
  intros E.
  assert (Hin : In (3, Started (AssetCopy "../LICENSE"
                                  "node_modules/@mdi/svg/svg"
                                  "dist/.icons/material"))
                  (log (assets_ E 0))).
  { vm_compute. do 2 right. left. reflexivity. }
  split; [exact Hin|].
  exact (assets_run_in_order E (oneshot_causal []) [] []
           (skipn 2 (asset_passes E))
           ("*.svg", "node_modules/@mdi/svg/svg", "dist/.icons/material",
            minsvg_transform E)%string
           ("../LICENSE", "node_modules/@mdi/svg/svg",
            "dist/.icons/material", minsvg_transform E)%string
           0 3 eq_refl Hin).
Defined.

(** ** The stages *)

Lemma length_tinsert {X} (x : nat * X) (l : list (nat * X)) :
  List.length (tinsert x l) = S (List.length l).
Proof.
  induction l as [|y l IH]; simpl; [reflexivity|].
  destruct (fst y <? fst x); simpl; [now rewrite IH | reflexivity].
Qed.

Lemma length_tsort {X} (l : list (nat * X)) :
  List.length (tsort l) = List.length l.
Proof.
  induction l as [|x l IH]; simpl; [reflexivity|].
  now rewrite length_tinsert, IH.
Qed.

(** [zip] of one key and a transform: the key with the first value the
    transform reports. *)
Lemma zip_of_emits {L A B} (k : A) (o : obs L B) (t : nat) :
  emits (zip (of_ [k]) o t)
  = match emits (o t) with
    | [] => []
    | (tb, v) :: _ => [(Nat.max t tb, (k, v))]
    end.
Proof. cbn. now destruct (emits (o t)) as [|[tb v] rest]. Qed.

Lemma zip_of_done {L A B} (k : A) (o : obs L B) (t tb : nat) (v : B)
    (rest : list (nat * B)) :
  emits (o t) = (tb, v) :: rest ->
  done (zip (of_ [k]) o t) = Some (Nat.max t tb).
Proof.
  intros He. unfold zip. cbn [done emits of_ map List.length].
  rewrite He. cbn [zip_pairs zip_end List.length nth_error].
  destruct (done (o t)) as [d|]; cbn [zip_end].
  - destruct rest as [|r rest]; cbn [List.length nth_error option_min].
    + f_equal. lia.
    + destruct (List.length rest); cbn; f_equal; lia.
  - cbn. f_equal. lia.
Qed.

Lemma all_done_cons {L A} (t : nat) (r : run L A) (rs : list (run L A)) :
  all_done t (r :: rs)
  = match done r, all_done t rs with
    | Some d, Some d' => Some (Nat.max d d')
    | _, _ => None
    end.
Proof. reflexivity. Qed.

Section Stage.

Context {L A B C : Type}.

Variable key : A -> B.
Variable report : A -> obs L C.

Definition per_file (file : A) : obs L (B * C) :=
  zip (of_ [key file]) (report file).

Lemma per_file_emits (l : list (nat * A)) :
  List.concat
    (map (@emits L (B * C))
       (map (fun e => per_file (snd e) (fst e)) l))
  = flat_map
      (fun e =>
         match emits (report (snd e) (fst e)) with
         | [] => []
         | (tb, v) :: _ => [(Nat.max (fst e) tb, (key (snd e), v))]
         end) l.
Proof.
  induction l as [|[tr file] l IH]; [reflexivity|].
  cbn [map List.concat flat_map fst snd]. rewrite IH.
  unfold per_file at 1. rewrite zip_of_emits.
  now destruct (emits (report file tr)) as [|[tb v] rest].
Qed.

Lemma per_file_length (l : list (nat * A)) :
  List.length
    (List.concat
       (map (@emits L (B * C))
          (map (fun e => per_file (snd e) (fst e)) l)))
  <= List.length l.
Proof.
  induction l as [|[tr file] l IH]; [reflexivity|].
  cbn [map List.concat fst snd]. rewrite length_app.
  unfold per_file at 1. rewrite zip_of_emits.
  destruct (emits (report file tr)) as [|[tb v] rest]; simpl; lia.
Qed.

Lemma per_file_all (d : nat) (l : list (nat * A)) :
  Forall (fun e => emits (report (snd e) (fst e)) <> []) l ->
  all_done d (map (fun e => per_file (snd e) (fst e)) l) <> None /\
  List.length
    (List.concat
       (map (@emits L (B * C))
          (map (fun e => per_file (snd e) (fst e)) l)))
  = List.length l.
Proof.
  induction 1 as [|[tr file] l He _ [IH1 IH2]].
  - split; [discriminate | reflexivity].
  - simpl in He.
    destruct (emits (report file tr)) as [|[tb v] rest] eqn:Hr;
      [congruence|].
    assert (Hd1 : done (per_file file tr) = Some (Nat.max tr tb))
      by (apply zip_of_done with v rest; exact Hr).
    assert (He1 : emits (per_file file tr)
                  = [(Nat.max tr tb, (key file, v))])
      by (unfold per_file; rewrite zip_of_emits, Hr; reflexivity).
    cbn [map fst snd List.concat]. rewrite all_done_cons, Hd1, He1. split.
    + destruct (all_done d _); [discriminate | congruence].
    + cbn [app List.length]. now rewrite IH2.
Qed.

End Stage.

(** The pairs a stage emits are these, in the order of their ticks: for
    each file the resolver lists, the transform of which reports a path,
    the file with its extension replaced together with the first path
    reported, at the tick of the report (or of the listing, if that is
    later). A file the transform of which reports nothing gives no pair,
    and what a transform reports after its first path gives none. When the
    resolver completes and the transform of every file listed reports a
    path, the stage completes, whether the transforms complete or not, and
    there are as many pairs as files listed. *)
Theorem stage_one_pair_per_file (E : env) (s : stage) (ts : nat) :
  let listing := m_emits (resolve E (stage_pattern s) "src" ts) in
  let reports := fun (tr : nat) (file : string) =>
    m_emits
      (stage_transform E s ("src/" ++ file)
         (ext (platform E) (base E ++ "/" ++ file) (stage_extension s))
         tr) in
  emits (stage_observable E s ts)
  = tsort
      (flat_map
         (fun e =>
            match reports (fst e) (snd e) with
            | [] => []
            | (tb, v) :: _ =>
                [(Nat.max (fst e) tb,
                  (ext (platform E) (snd e) (stage_extension s), v))]
            end) listing) /\
  (m_done (resolve E (stage_pattern s) "src" ts) <> None ->
   (forall tr file, In (tr, file) listing -> reports tr file <> []) ->
   done (stage_observable E s ts) <> None /\
   List.length (emits (stage_observable E s ts)) = List.length listing).
Proof.
  intros listing reports. subst listing reports.
  destruct s; cbn [stage_observable stage_pattern stage_transform
                   stage_extension];
    unfold stylesheets_, javascripts_, mergeMap, silent;
    cbn [emits done].
  - split.
    + f_equal.
      apply (per_file_emits (fun file => ext (platform E) file ".css")
               (fun file =>
                 traced
                   (Transform Style ("src/" ++ file)
                      (ext (platform E) (base E ++ "/" ++ file) ".css"))
                   (transformStyle E ("src/" ++ file)
                      (ext (platform E) (base E ++ "/" ++ file) ".css")))).
    + intros Hd Hall. rewrite length_tsort.
      destruct (m_done (resolve E "**/[!_]*.scss" "src" ts)) as [d|];
        [|congruence].
      apply (per_file_all (fun file => ext (platform E) file ".css")
               (fun file =>
                 traced
                   (Transform Style ("src/" ++ file)
                      (ext (platform E) (base E ++ "/" ++ file) ".css"))
                   (transformStyle E ("src/" ++ file)
                      (ext (platform E) (base E ++ "/" ++ file) ".css")))).
      apply Forall_forall. intros [tr file] Hin. now apply Hall.
  - split.
    + f_equal.
      apply (per_file_emits (fun file => ext (platform E) file ".js")
               (fun file =>
                 traced
                   (Transform Script ("src/" ++ file)
                      (ext (platform E) (base E ++ "/" ++ file) ".js"))
                   (transformScript E ("src/" ++ file)
                      (ext (platform E) (base E ++ "/" ++ file) ".js")))).
    + intros Hd Hall. rewrite length_tsort.
      destruct (m_done (resolve E "**/{bundle,search}.ts" "src" ts))
        as [d|]; [|congruence].
      apply (per_file_all (fun file => ext (platform E) file ".js")
               (fun file =>
                 traced
                   (Transform Script ("src/" ++ file)
                      (ext (platform E) (base E ++ "/" ++ file) ".js"))
                   (transformScript E ("src/" ++ file)
                      (ext (platform E) (base E ++ "/" ++ file) ".js")))).
      apply Forall_forall. intros [tr file] Hin. now apply Hall.
Qed.

(** Two style sheets, listed at tick 1. The transform of the first
    reports its path at tick 5 and a source map after it, and stays open;
    the transform of the second reports its path at tick 3. The stage
    emits the pair of the second file, then the pair of the first, and
    completes. *)
Lemma stage_one_pair_per_file_witness :
  let E := {| platform := Path.Posix; argv := []; base := "dist";
              resolve := fun _ _ => Scenario.after 1 ["a.scss"; "b.scss"];
              glob := glob (Scenario.oneshot []);
              watch := watch (Scenario.oneshot []);
              copyAll := copyAll (Scenario.oneshot []);
              transformStyle := fun _ to =>
                if String.eqb to "dist/a.css"
                then Scenario.after_open 4 [to; (to ++ ".map")%string]
                else Scenario.after 2 [to];
              transformScript := transformScript (Scenario.oneshot []);
              optimize := optimize (Scenario.oneshot []);
              minhtml := minhtml (Scenario.oneshot []);
              regexp := regexp (Scenario.oneshot []) |} in
  emits (stage_observable E Style 0)
  = [(3, ("b.css", "dist/b.css")); (5, ("a.css", "dist/a.css"))] /\
  done (stage_observable E Style 0) <> None /\
  List.length (emits (stage_observable E Style 0)) = 2.
Proof.
  intros E. split; [vm_compute; reflexivity|].
  apply (proj2 (stage_one_pair_per_file E Style 0)).
  - discriminate.
  - intros tr file H. vm_compute in H.
    destruct H as [H|[H|[]]]; injection H as <- <-; vm_compute; discriminate.
Defined.

(** ** The one-shot build *)

Lemma filter_all {X} (l : list X) : filter (fun _ => true) l = l.
Proof. induction l as [|x l IH]; simpl; [reflexivity | now rewrite IH]. Qed.

Lemma batches_oneshot {A} (E : env) (pattern : string)
    (observable_ : obs event A) (t0 : nat) :
  argv_includes E "--watch" = false ->
  emits (batches E pattern observable_ t0)
  = match done (observable_ t0) with
    | Some d => [(d, map snd (emits (observable_ t0)))]
    | None => []
    end.
Proof.
  intros Hw. unfold batches, switchMap. cbn [emits].
  rewrite (triggers_oneshot E pattern t0 Hw).
  cbn [switch_inners next_time map List.concat].
  unfold cut, toArray, kept. cbn [emits]. now rewrite filter_all, app_nil_r.
Qed.

Lemma mappings_merge (E : env) (t0 : nat) :
  emits (mappings E t0)
  = tsort (emits (batches E "**/*.scss" (stylesheets_ E) t0)
           ++ emits (batches E "**/*.{js,ts}*" (javascripts_ E) t0)).
Proof.
  unfold mappings, merge. cbn [emits map List.concat].
  now rewrite app_nil_r.
Qed.

Lemma mappings_oneshot (E : env) (t0 : nat) :
  argv_includes E "--watch" = false ->
  forall t b,
    In (t, b) (emits (mappings E t0)) <->
    exists s,
      done (stage_observable E s t0) = Some t /\
      b = map snd (emits (stage_observable E s t0)).
Proof.
  intros Hw t b. rewrite mappings_merge, In_tsort, in_app_iff.
  rewrite !batches_oneshot by exact Hw. split.
  - intros [H|H].
    + exists Style. cbn [stage_observable].
      destruct (done (stylesheets_ E t0)) as [d|]; [|destruct H].
      destruct H as [[= <- <-]|[]]. auto.
    + exists Script. cbn [stage_observable].
      destruct (done (javascripts_ E t0)) as [d|]; [|destruct H].
      destruct H as [[= <- <-]|[]]. auto.
  - intros ([|] & Hd & ->); cbn [stage_observable] in *; rewrite Hd.
    + left. now left.
    + right. now left.
Qed.

(** Without [--watch] each stage is run once, from the tick of the
    subscription: [manifest$] emits at most two values, and each batch is
    all that the run of one stage has emitted by its completion. A stage
    that does not complete delivers no batch. *)
Theorem oneshot_batches (E : env) (t0 : nat) :
  argv_includes E "--watch" = false ->
  List.length (emits (manifest_ E t0)) <= 2 /\
  forall t b,
    In (t, b) (emits (mappings E t0)) <->
    exists s,
      done (stage_observable E s t0) = Some t /\
      b = map snd (emits (stage_observable E s t0)).
Proof.
  intros Hw. split; [|exact (mappings_oneshot E t0 Hw)].
  unfold manifest_, scan. cbn [emits].
  rewrite <- (length_map fst), scan_list_times, length_map.
  rewrite mappings_merge, length_tsort, length_app.
  rewrite !batches_oneshot by exact Hw.
  destruct (done (stylesheets_ E t0)), (done (javascripts_ E t0));
    simpl; lia.
Qed.

Lemma oneshot_batches_witness :
  let E := Scenario.oneshot [] in
  argv_includes E "--watch" = false /\
  List.length (emits (manifest_ E 0)) <= 2.
Proof.
  intros E.
  assert (H : argv_includes E "--watch" = false) by reflexivity.
  split; [exact H|]. exact (proj1 (oneshot_batches E 0 H)).
Defined.

(** A stage for which the resolver lists no file still delivers its
    batch, the empty one, when the resolver completes, and a template pass
    is started for it. *)
Theorem empty_stage_starts_templates (E : env) (s : stage) (t0 d : nat) :
  argv_includes E "--watch" = false ->
  m_emits (resolve E (stage_pattern s) "src" t0) = [] ->
  m_done (resolve E (stage_pattern s) "src" t0) = Some d ->
  In (d, []) (emits (mappings E t0)) /\
  exists manifest,
    In (d, Started (Rewrite manifest)) (log (templates_ E t0)).
Proof.
  intros Hw He Hd.
  assert (Hstage : emits (stage_observable E s t0) = [] /\
                   done (stage_observable E s t0) = Some d).
  { destruct s; cbn [stage_observable stage_pattern] in *;
      unfold stylesheets_, javascripts_, mergeMap, silent;
      cbn [emits done]; rewrite He, Hd; split; reflexivity. }
  destruct Hstage as [Hse Hsd].
  assert (Hin : In (d, []) (emits (mappings E t0))).
  { apply (mappings_oneshot E t0 Hw). exists s.
    rewrite Hse. auto. }
  split; [exact Hin|].
  apply In_nth_error in Hin as (i & Hi).
  destruct (fold_left (fold_mapping E)
              (map snd (firstn (S i) (emits (mappings E t0)))) seed)
    as [l h] eqn:Hfold.
  assert (Hn : nth_error (emits (manifest_ E t0)) i = Some (d, (l, h))).
  { unfold manifest_, scan. cbn [emits]. apply nth_scan_list.
    exists []. split; [exact Hi | now rewrite Hfold]. }
  exists (Store.read h l). exact (rewrite_started E t0 i Hn).
Qed.

(** A source tree without style sheets. *)
Lemma empty_stage_starts_templates_witness :
  let E := {| platform := Path.Posix; argv := []; base := "dist";
              resolve := fun _ _ => Scenario.after 1 [];
              glob := glob (Scenario.oneshot []);
              watch := watch (Scenario.oneshot []);
              copyAll := copyAll (Scenario.oneshot []);
              transformStyle := transformStyle (Scenario.oneshot []);
              transformScript := transformScript (Scenario.oneshot []);
              optimize := optimize (Scenario.oneshot []);
              minhtml := minhtml (Scenario.oneshot []);
              regexp := regexp (Scenario.oneshot []) |} in
  In (1, []) (emits (mappings E 0)) /\
  exists manifest,
    In (1, Started (Rewrite manifest)) (log (templates_ E 0)).
Proof.
  intros E.
  exact (empty_stage_starts_templates E Style 0 1 eq_refl eq_refl eq_refl).
Defined.

(** ** The calls of the transforms *)

Lemma In_zip_log {L A B} (a : obs L A) (b : obs L B) (t : nat)
    (x : nat * L) :
  In x (log (zip a b t)) -> In x (log (a t)) \/ In x (log (b t)).
Proof.
  unfold zip. cbn [log]. intros H. apply filter_In in H as [H _].
  now apply in_app_iff in H.
Qed.

Lemma triggers_log_empty (E : env) (pattern : string) (t0 : nat)
    (x : nat * event) :
  ~ In x (log (triggers E pattern t0)).
Proof.
  intros H. pose proof (labelled_triggers E (fun _ => False) pattern t0) as Hl.
  rewrite Forall_forall in Hl. exact (Hl _ H).
Qed.

Lemma transform_started_in_stage (E : env) (s0 s : stage) (ts t : nat)
    (from to : string) :
  In (t, Started (Transform s from to)) (log (stage_observable E s0 ts)) ->
  s = s0 /\
  exists file,
    In (t, file) (m_emits (resolve E (stage_pattern s) "src" ts)) /\
    from = ("src/" ++ file)%string /\
    to = ext (platform E) (base E ++ "/" ++ file) (stage_extension s).
Proof.
  destruct s0; cbn [stage_observable]; unfold stylesheets_, javascripts_;
    intros H;
    apply In_mergeMap_log in H as [[]|(tr & file & Hfile & H)];
    apply In_zip_log in H as [[]|H];
    unfold traced, instrumented in H; cbn [log] in H;
    (destruct H as [[= <- <- <- <-]|H];
     [split; [reflexivity|]; exists file; auto|]);
    (destruct (m_done _) in H; [|destruct H]);
    destruct H as [[= ]|[]].
Qed.

Lemma transform_started_in_templates (E : env) (s : stage) (t0 t : nat)
    (from to : string) :
  In (t, Started (Transform s from to)) (log (templates_ E t0)) ->
  exists file ts,
    In (t, file) (m_emits (resolve E (stage_pattern s) "src" ts)) /\
    from = ("src/" ++ file)%string /\
    to = ext (platform E) (base E ++ "/" ++ file) (stage_extension s).
Proof.
  intros H. unfold templates_ in H.
  apply In_switchMap_log in H as [H|(i & ti & [l h] & _ & H & _)].
  - unfold manifest_, scan, mappings, merge in H.
    cbn [log map List.concat] in H.
    rewrite !in_app_iff in H.
    destruct H as [H|[H|[]]]; unfold batches in H;
      apply In_switchMap_log in H as [H|(i & ts & a & _ & H & _)];
      try (now apply triggers_log_empty in H);
      unfold toArray in H; cbn [log] in H.
    + apply (transform_started_in_stage E Style) in H
        as (_ & file & H1 & H2 & H3). eauto.
    + apply (transform_started_in_stage E Script) in H
        as (_ & file & H1 & H2 & H3). eauto.
  - unfold template_pass, traced, instrumented in H. cbn [log] in H.
    destruct H as [[= ]|H]. destruct (m_done _) in H; [|destruct H].
    destruct H as [[= ]|[]].
Qed.

(** A transform is only ever called for a file the resolver of its stage
    lists, at the tick the file is listed, with the file under [src] as
    its source and the file under the output root, its extension
    replaced, as its destination. *)
Theorem transform_calls (E : env) (s : stage) (t0 t : nat)
    (from to : string) :
  In (t, Started (Transform s from to)) (log (build_ E t0)) ->
  exists file ts,
    In (t, file) (m_emits (resolve E (stage_pattern s) "src" ts)) /\
    from = ("src/" ++ file)%string /\
    to = ext (platform E) (base E ++ "/" ++ file) (stage_extension s).
Proof.
  unfold build_. destruct (argv_includes E "--dirty").
  - unfold merge. cbn [log map List.concat]. rewrite app_nil_r.
    apply transform_started_in_templates.
  - intros H. apply (@In_concat_log event string) in H.
    destruct H as [H|(d & _ & H)].
    + pose proof (labelled_assets E t0) as Hl. rewrite Forall_forall in Hl.
      destruct (Hl _ H).
    + apply (@In_concat_log event string) in H.
      destruct H as [H|(d' & _ & [])].
      now apply transform_started_in_templates in H.
Qed.

Lemma transform_calls_witness :
  let E := Scenario.oneshot [] in
  In (37, Started (Transform Style "src/main.scss" "dist/main.css"))
    (log (build_ E 0)) /\
  exists file ts,
    In (37, file) (m_emits (resolve E (stage_pattern Style) "src" ts)) /\
    "src/main.scss"%string = ("src/" ++ file)%string.
Proof.
  intros E.
  assert (Hin : In (37, Started (Transform Style "src/main.scss"
                                   "dist/main.css")) (log (build_ E 0))).
  { vm_compute. do 24 right. left. reflexivity. }
  split; [exact Hin|].
  destruct (transform_calls E Style 0 37 _ _ Hin)
    as (file & ts & H1 & H2 & _).
  exists file, ts. auto.
Defined.

End ScheduleFacts.
